(** * services/diff_extractor.py: key-field extraction and record comparison

    A shallow embedding of the three functions of the module
    ([extract_key_fields], [compute_differences],
    [key_fields_indicate_different_claim]) together with the part of
    Python's [re] and [str] they rely on, and the properties of the module's
    specification proved (or refuted) on that embedding. *)

From Stdlib Require Import ZArith NArith Ascii String.
From stdpp Require Import base option list numbers countable strings gmap fin_maps fin_sets.

Open Scope N_scope.
Open Scope list_scope.

(** ** Python strings

    A Python [str] is a sequence of Unicode code points.  A code point is an
    [N]; a string is a [list N].  Field names, field values and the subject
    text all have this type. *)

Module Str.

(** The code point of an ASCII character of the source. *)
Definition chr (a : ascii) : N := N_of_ascii a.

(** An ASCII string literal of the source as a Python string. *)
Definition py (s : string) : list N := N_of_ascii <$> list_ascii_of_string s.

(** U+20B9 INDIAN RUPEE SIGN and U+2014 EM DASH, the two characters of the
    source outside ASCII. *)
Definition rupee : N := 0x20B9.
Definition em_dash : N := 0x2014.

(** [str.isspace] for one code point, which is also what [\s] tests in a
    [str] pattern: the ASCII white space 09-0D, 1C-1F, 20 and the Unicode
    white space 85, A0, 1680, 2000-200A, 2028, 2029, 202F, 205F, 3000. *)
Definition isspace (c : N) : bool :=
  ((0x09 <=? c) && (c <=? 0x0D)) || ((0x1C <=? c) && (c <=? 0x20))
  || (c =? 0x85) || (c =? 0xA0) || (c =? 0x1680)
  || ((0x2000 <=? c) && (c <=? 0x200A))
  || (c =? 0x2028) || (c =? 0x2029) || (c =? 0x202F) || (c =? 0x205F)
  || (c =? 0x3000).

(** [s.lstrip()] and [s.strip()] with no argument: white space is removed
    at the ends only. *)
Fixpoint lstrip (s : list N) : list N :=
  match s with
  | c :: s' => if isspace c then lstrip s' else s
  | [] => []
  end.

Definition strip (s : list N) : list N := rev (lstrip (rev (lstrip s))).

Definition is_upper (c : N) : bool := (0x41 <=? c) && (c <=? 0x5A).
Definition is_lower (c : N) : bool := (0x61 <=? c) && (c <=? 0x7A).

End Str.

Import Str.

(** ** The part of [re] the module uses

    Every pattern of the module is built from literals, bracketed sets and
    the classes [\s] and [\d], concatenation, alternation, a greedy optional
    group, greedy repetition of a one-character set, and a single capturing
    group.  The matcher below is a backtracking matcher with the priorities
    of [re]: the first alternative before the second, one more repetition
    before stopping, the optional part before its absence; [re.search] tries
    the start positions from left to right. *)

Module Re.

(** General category Nd (decimal digit) outside ASCII.  [\d] in a [str]
    pattern asks the Unicode database of the interpreter, which varies
    with its version; it is a parameter of the model.  ASCII code points
    never reach it. *)
Class UnicodeData := nd_beyond_ascii : N → bool.

(** A database without decimal digits beyond ASCII. *)
Definition ascii_digits_only : UnicodeData := λ _, false.

Section Matcher.
Context {ucd : UnicodeData}.

Definition isdecimal (c : N) : bool :=
  if c <? 0x80 then (0x30 <=? c) && (c <=? 0x39) else nd_beyond_ascii c.

(** *** IGNORECASE

    With [re.I] a cased literal or a set with a cased member is compiled
    to its lowercase form extended by the lowercase characters that share
    its uppercase, and the subject character is lowered before the test.
    [lower] is the lowercase mapping where its value is an ASCII letter:
    on A-Z, on U+0130 (to i) and on U+212A (to k).  Elsewhere it is the
    identity: the lowercase of any other code point is not an ASCII
    letter, and the only cased characters of the patterns are ASCII
    letters.  [fixes] gives U+0131 for i and U+017F for s. *)
Definition lower (c : N) : N :=
  if is_upper c then c + 0x20
  else if c =? 0x130 then 0x69
  else if c =? 0x212A then 0x6B
  else c.

Definition fixes (lo : N) : list N :=
  if lo =? 0x69 then [0x131] else if lo =? 0x73 then [0x17F] else [].

(** Applied to the characters of a pattern only. *)
Definition iscased (c : N) : bool := is_upper c || is_lower c.

Definition lowered (c : N) : list N := lower c :: fixes (lower c).

Definition lit_match (ignorecase : bool) (l c : N) : bool :=
  if ignorecase && iscased l
  then existsb (N.eqb (lower c)) (lowered l)
  else c =? l.

(** *** Sets *)

Inductive item :=
| Chr (c : N)          (* a character of a set *)
| Rng (lo hi : N)      (* lo-hi *)
| Digit                (* \d *)
| Space.               (* \s *)

Record charset := Charset { negate : bool; members : list item }.

Definition range (lo hi : N) : list N :=
  N.of_nat <$> seq (N.to_nat lo) (S (N.to_nat hi) - N.to_nat lo).

Definition item_hascased (i : item) : bool :=
  match i with
  | Chr c => iscased c
  | Rng lo hi => existsb iscased (range lo hi)
  | Digit | Space => false
  end.

(** [fold] says that the set was compiled for IGNORECASE, in which case
    [c] is the lowered subject character. *)
Definition item_match (fold : bool) (i : item) (c : N) : bool :=
  match i with
  | Chr x => if fold then existsb (N.eqb c) (lowered x) else c =? x
  | Rng lo hi =>
      if fold then existsb (N.eqb c) (flat_map lowered (range lo hi))
      else (lo <=? c) && (c <=? hi)
  | Digit => isdecimal c
  | Space => isspace c
  end.

Definition in_charset (ignorecase : bool) (cs : charset) (c : N) : bool :=
  let fold := ignorecase && existsb item_hascased (members cs) in
  let c' := if fold then lower c else c in
  xorb (negate cs) (existsb (λ i, item_match fold i c') (members cs)).

(** *** Patterns *)

Inductive regex :=
| Eps
| Lit (c : N)
| In (cs : charset)
| Cat (r1 r2 : regex)
| Alt (r1 r2 : regex)                              (* r1|r2 *)
| Opt (r : regex)                                  (* (?:r)? *)
| Rep (cs : charset) (lo : nat) (hi : option nat)  (* cs{lo,hi}, greedy *)
| Group (r : regex).                               (* (r), group 1 *)

(** The inputs left after [cs{lo,hi}], the longest repetition first. *)
Fixpoint rep (p : N → bool) (lo : nat) (hi : option nat) (s : list N)
  : list (list N) :=
  let stop := match lo with O => [s] | S _ => [] end in
  match s with
  | c :: s' =>
      if p c && match hi with Some O => false | _ => true end
      then rep p (pred lo) (pred <$> hi) s' ++ stop
      else stop
  | [] => stop
  end.

(** All the ways [r] matches a prefix of [s], in the order in which the
    backtracking matcher finds them: the input left and the text of
    group 1, when the group took part. *)
Fixpoint run (ignorecase : bool) (r : regex) (s : list N)
  : list (list N * option (list N)) :=
  match r with
  | Eps => [(s, None)]
  | Lit l =>
      match s with
      | c :: s' => if lit_match ignorecase l c then [(s', None)] else []
      | [] => []
      end
  | In cs =>
      match s with
      | c :: s' => if in_charset ignorecase cs c then [(s', None)] else []
      | [] => []
      end
  | Cat r1 r2 =>
      '(s1, g1) ← run ignorecase r1 s;
      '(s2, g2) ← run ignorecase r2 s1;
      [(s2, match g2 with Some g => Some g | None => g1 end)]
  | Alt r1 r2 => run ignorecase r1 s ++ run ignorecase r2 s
  | Opt r => run ignorecase r s ++ [(s, None)]
  | Rep cs lo hi => (λ s', (s', None)) <$> rep (in_charset ignorecase cs) lo hi s
  | Group r =>
      (λ '(s', _), (s', Some (take (length s - length s') s)))
        <$> run ignorecase r s
  end.

(** A match object, as far as the module looks at it: [m.group(1)] is
    [None] when the group did not take part in the match. *)
Record Match := MkMatch { group_1 : option (list N) }.

(** [re.search(r, text, flags)]: the first match at the leftmost start
    position that has one, [None] when no position has. *)
Fixpoint search (ignorecase : bool) (r : regex) (text : list N) : option Match :=
  match run ignorecase r text with
  | (_, g) :: _ => Some (MkMatch g)
  | [] =>
      match text with
      | _ :: text' => search ignorecase r text'
      | [] => None
      end
  end.

(** *** Writing patterns *)

Fixpoint cat (rs : list regex) : regex :=
  match rs with
  | [] => Eps
  | [r] => r
  | r :: rs' => Cat r (cat rs')
  end.

Definition word (s : string) : regex := cat (Lit <$> py s).
Definition set (l : list item) : charset := Charset false l.
Definition nset (l : list item) : charset := Charset true l.
Definition star (cs : charset) : regex := Rep cs 0 None.
Definition plus (cs : charset) : regex := Rep cs 1 None.
Definition between (lo hi : nat) (cs : charset) : regex := Rep cs lo (Some hi).

End Matcher.

End Re.

Import Re.

(** ** Exceptions

    The one operation of the module that can fail on a string input is the
    method call [m.group(1).strip()]: a group that took no part in the match
    is [None], and [None.strip()] raises [AttributeError]. *)

Inductive exn := AttributeError.

Inductive result (A : Type) :=
| Ok (a : A)
| Raise (e : exn).

Arguments Ok {A} a.
Arguments Raise {A} e.

#[global] Instance result_bind : MBind result := λ A B f r,
  match r with
  | Ok a => f a
  | Raise e => Raise e
  end.

(** [v.strip()] for [v] a string or [None]. *)
Definition strip_method (v : option (list N)) : result (list N) :=
  match v with
  | Some s => Ok (strip s)
  | None => Raise AttributeError
  end.

(** ** The module *)

(** A [dict[str, Any]] whose values are strings or [None]. *)
Abbreviation dict := (gmap (list N) (option (list N))).

(** [d.get(key)]: [None] for a missing key. *)
Definition get (d : dict) (key : list N) : option (list N) :=
  match d !! key with
  | Some v => v
  | None => None
  end.

Definition claim_amount : list N := py "claim_amount".
Definition claimant_name : list N := py "claimant_name".
Definition incident_date : list N := py "incident_date".
Definition policy_number : list N := py "policy_number".

(** *** The patterns of [extract_key_fields]

    Each definition is headed by the pattern as the source writes it. *)

Definition ws : charset := set [Space].
Definition digit : charset := set [Digit].
Definition colon_ws : charset := set [Chr (chr ":"); Space].

(** [[\d,]+(?:\.\d+)?] *)
Definition number : regex :=
  cat [plus (set [Digit; Chr (chr ",")]); Opt (cat [Lit (chr "."); plus digit])].

(** [(?:L|Lakh)?] *)
Definition lakh_opt : regex := Opt (Alt (word "L") (word "Lakh")).

(** [treatment\s*cost[:\s]*[^\d]*([\d,]+(?:\.\d+)?)] *)
Definition amount_treatment_cost : regex :=
  cat [word "treatment"; star ws; word "cost"; star colon_ws;
       star (nset [Digit]); Group number].

(** [[Rr]s\.?\s*([\d,]+(?:\.\d+)?)\s*(?:L|Lakh)?] *)
Definition amount_rs : regex :=
  cat [In (set [Chr (chr "R"); Chr (chr "r")]); Lit (chr "s"); Opt (Lit (chr "."));
       star ws; Group number; star ws; lakh_opt].

(** [₹\s*([\d,]+(?:\.\d+)?)\s*(?:L|Lakh)?] *)
Definition amount_rupee : regex :=
  cat [Lit rupee; star ws; Group number; star ws; lakh_opt].

(** [([\d,]+(?:\.\d+)?)\s*(?:L|Lakh|INR)] *)
Definition amount_unit : regex :=
  cat [Group number; star ws; Alt (word "L") (Alt (word "Lakh") (word "INR"))].

(** [claim\s*amount[:\s]+([\d,]+(?:\.\d+)?)] *)
Definition amount_claim_amount : regex :=
  cat [word "claim"; star ws; word "amount"; plus colon_ws; Group number].

(** [amount[:\s]+([\d,]+(?:\.\d+)?)] *)
Definition amount_amount : regex :=
  cat [word "amount"; plus colon_ws; Group number].

Definition amount_patterns : list regex :=
  [amount_treatment_cost; amount_rs; amount_rupee; amount_unit;
   amount_claim_amount; amount_amount].

(** [policy\s*(?:no|number|#)?[:\s]*([A-Za-z0-9\-/]+)] *)
Definition policy_pattern : regex :=
  cat [word "policy"; star ws;
       Opt (Alt (word "no") (Alt (word "number") (Lit (chr "#"))));
       star colon_ws;
       Group (plus (set [Rng (chr "A") (chr "Z"); Rng (chr "a") (chr "z");
                         Rng (chr "0") (chr "9"); Chr (chr "-"); Chr (chr "/")]))].

(** [\d{1,2}[/\-]\d{1,2}[/\-]\d{2,4}] *)
Definition date_shape : regex :=
  let sep := In (set [Chr (chr "/"); Chr (chr "-")]) in
  cat [between 1 2 digit; sep; between 1 2 digit; sep; between 2 4 digit].

(** [date\s+of\s+incident[:\s]*(...)] *)
Definition date_of_incident : regex :=
  cat [word "date"; plus ws; word "of"; plus ws; word "incident";
       star colon_ws; Group date_shape].

(** [(?:incident|date|loss|accident)\s*(?:date)?[:\s]*(...)] *)
Definition date_keyword : regex :=
  cat [Alt (word "incident") (Alt (word "date") (Alt (word "loss") (word "accident")));
       star ws; Opt (word "date"); star colon_ws; Group date_shape].

(** [(\d{1,2}[/\-]\d{1,2}[/\-]\d{2,4})] *)
Definition date_bare : regex := Group date_shape.

(** [[A-Za-z\s]{2,50}] *)
Definition name_shape : regex :=
  between 2 50 (set [Rng (chr "A") (chr "Z"); Rng (chr "a") (chr "z"); Space]).

(** [policy\s*holder\s*name[:\s]*([A-Za-z\s]{2,50})] *)
Definition name_policy_holder : regex :=
  cat [word "policy"; star ws; word "holder"; star ws; word "name";
       star colon_ws; Group name_shape].

(** [(?:claimant|name|insured)[:\s]*([A-Za-z\s]{2,50})] *)
Definition name_keyword : regex :=
  cat [Alt (word "claimant") (Alt (word "name") (word "insured"));
       star colon_ws; Group name_shape].

Section Extractor.
Context {ucd : UnicodeData}.

(** [re.search(p, text, re.I)] and [re.search(p, text)]. *)
Definition IGNORECASE : bool := true.
Definition NOFLAG : bool := false.

(** [fields[key] = m.group(1).strip()] *)
Definition assign_group (fields : dict) (key : list N) (m : Match) : result dict :=
  v ← strip_method (group_1 m);
  Ok (<[key := Some v]> fields).

(** The loop over [amount_patterns], left by [break] at the first pattern
    that matches. *)
Fixpoint amount_loop (ps : list regex) (text : list N) (fields : dict) : result dict :=
  match ps with
  | [] => Ok fields
  | p :: ps' =>
      match search IGNORECASE p text with
      | Some m => assign_group fields claim_amount m
      | None => amount_loop ps' text fields
      end
  end.

Definition extract_key_fields (text : list N) : result dict :=
  let fields : dict :=
    <[claim_amount := None]> (<[claimant_name := None]>
      (<[incident_date := None]> (<[policy_number := None]> ∅))) in
  fields ← amount_loop amount_patterns text fields;
  fields ←
    match search IGNORECASE policy_pattern text with
    | Some policy_m => assign_group fields policy_number policy_m
    | None => Ok fields
    end;
  fields ←
    match search IGNORECASE date_of_incident text with
    | Some date_m => assign_group fields incident_date date_m
    | None =>
        match search IGNORECASE date_keyword text with
        | Some date_m => assign_group fields incident_date date_m
        | None =>
            match search NOFLAG date_bare text with
            | Some date_m => assign_group fields incident_date date_m
            | None => Ok fields
            end
        end
    end;
  let name_m :=
    match search IGNORECASE name_policy_holder text with
    | Some m => Some m
    | None => search IGNORECASE name_keyword text
    end in
  match name_m with
  | Some m =>
      v ← strip_method (group_1 m);
      Ok (<[claimant_name := Some (take 80 v)]> fields)
  | None => Ok fields
  end.

End Extractor.

(** ** Difference computer *)

(** The order in which [for key in set(a) | set(b)] visits the keys.  A
    Python set is iterated in an order that depends on the hashes of its
    elements and on how it was built; all that is fixed is that every
    element is visited once. *)
Class SetIteration := {
  iter_union : gset (list N) → gset (list N) → list (list N);
  iter_union_perm X Y : iter_union X Y ≡ₚ elements (X ∪ Y)
}.

(** Iteration in the order of [elements]. *)
Definition elements_order : SetIteration :=
  {| iter_union X Y := elements (X ∪ Y);
     iter_union_perm X Y := reflexivity (elements (X ∪ Y)) |}.

(** [{"field": ..., "old_value": ..., "new_value": ...}] *)
Record difference := Difference {
  field : list N;
  old_value : list N;
  new_value : list N
}.

(** [str(v) if v is not None else "—"]; [str] of a string is the string. *)
Definition str_or_dash (v : option (list N)) : list N :=
  match v with
  | Some s => s
  | None => [em_dash]
  end.

(** The body of the loop of [compute_differences] for one key. *)
Definition diff_step (new_fields existing_fields : dict)
  (diffs : list difference) (key : list N) : list difference :=
  let ov := get existing_fields key in
  let nv := get new_fields key in
  match ov, nv with
  | None, None => diffs
  | _, _ =>
      if decide (ov ≠ nv)
      then diffs ++ [Difference key (str_or_dash ov) (str_or_dash nv)]
      else diffs
  end.

Definition compute_differences `{SetIteration}
  (new_fields existing_fields : dict) : list difference :=
  let all_keys := iter_union (dom new_fields) (dom existing_fields) in
  fold_left (diff_step new_fields existing_fields) all_keys [].

(** ** Claim-distinctness classifier *)

Definition CRITICAL_CLAIM_FIELDS : list (list N) :=
  [policy_number; claimant_name; claim_amount; incident_date].

(** [min_differences] is [None] when the caller leaves the argument out. *)
Definition key_fields_indicate_different_claim `{SetIteration}
  (new_fields existing_fields : dict) (min_differences : option Z) : bool :=
  let min_differences := default 2%Z min_differences in
  let diffs := compute_differences new_fields existing_fields in
  let critical_diffs := filter (λ d, field d ∈ CRITICAL_CLAIM_FIELDS) diffs in
  (Z.of_nat (length critical_diffs) >=? min_differences)%Z.

(** ** The specification's wording, for comparison with the code *)

(** The critical field set. *)
Definition critical_field_set : gset (list N) :=
  {[policy_number; claimant_name; claim_amount; incident_date]}.

(** The number of difference entries whose field is critical. *)
Definition critical_count (diffs : list difference) : nat :=
  length (filter (λ d, field d ∈ critical_field_set) diffs).

(** The trimmed first capture group of a pattern that matches. *)
Definition trimmed_group `{UnicodeData} (flag : bool) (p : regex) (text : list N)
  : option (list N) :=
  m ← search flag p text; strip <$> group_1 m.

(** The first of two values that is not null. *)
Definition or_else {A} (x y : option A) : option A :=
  match x with
  | Some _ => x
  | None => y
  end.

(** The first pattern of an ordered list that matches anywhere in the text. *)
Definition first_matching `{UnicodeData} (ps : list regex) (text : list N)
  : option regex :=
  snd <$> list_find (λ p, is_Some (search IGNORECASE p text)) ps.

(** The claim amount: the trimmed group of the first matching pattern, null
    when none matches. *)
Definition spec_claim_amount `{UnicodeData} (text : list N) : option (list N) :=
  p ← first_matching amount_patterns text; trimmed_group IGNORECASE p text.

(** The policy number: a single pattern. *)
Definition spec_policy_number `{UnicodeData} (text : list N) : option (list N) :=
  trimmed_group IGNORECASE policy_pattern text.

(** The incident date: three tiers, the last one without a keyword. *)
Definition spec_incident_date `{UnicodeData} (text : list N) : option (list N) :=
  or_else (trimmed_group IGNORECASE date_of_incident text)
    (or_else (trimmed_group IGNORECASE date_keyword text)
       (trimmed_group NOFLAG date_bare text)).

(** The claimant name: two tiers, trimmed and cut to 80 characters. *)
Definition spec_claimant_name `{UnicodeData} (text : list N) : option (list N) :=
  take 80 <$> or_else (trimmed_group IGNORECASE name_policy_holder text)
                      (trimmed_group IGNORECASE name_keyword text).

(** Group 1 lies on every path through the pattern. *)
Fixpoint captures (r : regex) : bool :=
  match r with
  | Group _ => true
  | Cat r1 r2 => captures r1 || captures r2
  | Alt r1 r2 => captures r1 && captures r2
  | Eps | Lit _ | In _ | Opt _ | Rep _ _ _ => false
  end.

(** Every match of the pattern sets group 1, to a text for which [P] holds. *)
Definition always_group `{UnicodeData} (flag : bool) (P : list N → Prop) (r : regex) : Prop :=
  ∀ s s' g, (s', g) ∈ run flag r s → ∃ g0, g = Some g0 ∧ P g0.

(** The difference entry of one key, when its two values differ (a null
    value against a string is a difference). *)
Definition difference_at (new_fields existing_fields : dict) (key : list N)
  : option difference :=
  let ov := get existing_fields key in
  let nv := get new_fields key in
  if decide (ov ≠ nv)
  then Some (Difference key (str_or_dash ov) (str_or_dash nv))
  else None.

(** A difference entry with the two values exchanged. *)
Definition swap (d : difference) : difference :=
  Difference (field d) (new_value d) (old_value d).

(** The four keys of a field record. *)
Definition field_record_keys : gset (list N) :=
  {[claim_amount; claimant_name; incident_date; policy_number]}.

(** ** Example inputs *)

Definition scenario_A : list N :=
  py "Policy Holder Name: John Smith, Date of Incident: 12/05/2023, Policy No: ABC-123, Treatment Cost 54,300".

Definition scenario_A_fields : dict :=
  <[claim_amount := Some (py "54,300")]> (<[claimant_name := Some (py "John Smith")]>
    (<[incident_date := Some (py "12/05/2023")]> (<[policy_number := Some (py "Holder")]> ∅))).

(** The record of a text without any recognizable pattern. *)
Definition all_null : dict :=
  <[claim_amount := None]> (<[claimant_name := None]>
    (<[incident_date := None]> (<[policy_number := None]> ∅))).

(** A record that differs from [scenario_A_fields] in the claim amount. *)
Definition other_amount : dict :=
  <[claim_amount := Some (py "1,000")]> scenario_A_fields.

(** A record that differs from it in the claim amount and the incident date. *)
Definition other_amount_and_date : dict :=
  <[incident_date := Some (py "01/01/2024")]> other_amount.

(** ** Notions for the further properties of the module *)

(** [v] is a contiguous part of [text]. *)
Definition substring (v text : list N) : Prop := ∃ a b, text = a ++ v ++ b.

(** No white space at the start of [s]. *)
Definition starts_clean (s : list N) : Prop :=
  match s with
  | c :: _ => isspace c = false
  | [] => True
  end.

(** The letters that [[A-Za-z]] matches under IGNORECASE: the 52 ASCII
    letters and U+0130, U+0131, U+017F, U+212A. *)
Definition letter (c : N) : bool :=
  is_upper c || is_lower c
  || (c =? 0x130) || (c =? 0x131) || (c =? 0x17F) || (c =? 0x212A).

Definition ascii_digit (c : N) : bool := (0x30 <=? c) && (c <=? 0x39).

(** The characters of a policy number, of a claimant name, of an amount
    and of a date. *)
Definition policy_char (c : N) : bool :=
  letter c || ascii_digit c || (c =? chr "-") || (c =? chr "/").

Definition name_char (c : N) : bool := letter c || isspace c.

Definition amount_char `{UnicodeData} (c : N) : bool :=
  isdecimal c || (c =? chr ",") || (c =? chr ".").

Definition date_char `{UnicodeData} (c : N) : bool :=
  isdecimal c || (c =? chr "/") || (c =? chr "-").

(** A group occurs somewhere in the pattern. *)
Fixpoint has_group (r : regex) : bool :=
  match r with
  | Group _ => true
  | Cat r1 r2 | Alt r1 r2 => has_group r1 || has_group r2
  | Opt r1 => has_group r1
  | Eps | Lit _ | In _ | Rep _ _ _ => false
  end.

(** The least and the greatest number of characters a match of the pattern
    can take ([None]: no bound). *)
Fixpoint min_len (r : regex) : nat :=
  match r with
  | Eps | Opt _ => 0
  | Lit _ | In _ => 1
  | Cat r1 r2 => min_len r1 + min_len r2
  | Alt r1 r2 => Nat.min (min_len r1) (min_len r2)
  | Rep _ lo _ => lo
  | Group r1 => min_len r1
  end.

Fixpoint max_len (r : regex) : option nat :=
  match r with
  | Eps => Some 0%nat
  | Lit _ | In _ => Some 1%nat
  | Cat r1 r2 =>
      match max_len r1, max_len r2 with
      | Some n1, Some n2 => Some (n1 + n2)%nat
      | _, _ => None
      end
  | Alt r1 r2 =>
      match max_len r1, max_len r2 with
      | Some n1, Some n2 => Some (Nat.max n1 n2)
      | _, _ => None
      end
  | Opt r1 | Group r1 => max_len r1
  | Rep _ _ hi => hi
  end.

(** Every character the pattern can match satisfies [Q]. *)
Fixpoint chars_in `{UnicodeData} (flag : bool) (Q : N → Prop) (r : regex) : Prop :=
  match r with
  | Eps => True
  | Lit l => ∀ c, lit_match flag l c = true → Q c
  | In cs | Rep cs _ _ => ∀ c, in_charset flag cs c = true → Q c
  | Cat r1 r2 | Alt r1 r2 => chars_in flag Q r1 ∧ chars_in flag Q r2
  | Opt r1 | Group r1 => chars_in flag Q r1
  end.

(** What a match of the pattern takes from the input: [pre] is the text
    matched, [s'] the input left. *)
Definition taken `{UnicodeData} (flag : bool) (Q : N → Prop) (r : regex)
  (s pre s' : list N) : Prop :=
  s = pre ++ s' ∧ Forall Q pre ∧ (min_len r ≤ length pre)%nat
  ∧ ∀ m, max_len r = Some m → (length pre ≤ m)%nat.

(** The texts that group 1 of the amount patterns, of the policy pattern,
    of the date patterns and of the name patterns can hold. *)
Definition amount_text `{UnicodeData} (g : list N) : Prop :=
  Forall (λ c, amount_char c = true) g
  ∧ ∃ c rest, g = c :: rest ∧ isdecimal c || (c =? chr ",") = true.

Definition policy_text (g : list N) : Prop :=
  Forall (λ c, policy_char c = true) g ∧ g ≠ [].

Definition date_text `{UnicodeData} (g : list N) : Prop :=
  Forall (λ c, date_char c = true) g
  ∧ (6 ≤ length g ≤ 10)%nat
  ∧ ∃ c rest, g = c :: rest ∧ isdecimal c = true.

Definition name_text (g : list N) : Prop :=
  Forall (λ c, name_char c = true) g ∧ (2 ≤ length g ≤ 50)%nat.

(** The number of the four critical fields on which two records differ. *)
Definition critical_fields_differing (new_fields existing_fields : dict) : nat :=
  length (filter (λ key, get existing_fields key ≠ get new_fields key)
            CRITICAL_CLAIM_FIELDS).

(** ** Strings *)

Lemma lstrip_length s : (length (lstrip s) ≤ length s)%nat.
Proof.
  induction s as [|c s IH]; simpl; [done|].
  destruct (isspace c); simpl; lia.
Qed.

Lemma strip_length s : (length (strip s) ≤ length s)%nat.
Proof.
  unfold strip. rewrite length_rev.
  etrans; [apply lstrip_length|]. rewrite length_rev. apply lstrip_length.
Qed.

(** ** The matcher *)

Section MatcherFacts.
Context {ucd : UnicodeData}.

Lemma rep_bound p lo hi s s' :
  s' ∈ rep p lo (Some hi) s → (length s ≤ length s' + hi)%nat.
Proof.
  revert lo hi. induction s as [|c s IH]; intros lo hi; simpl.
  - destruct lo; [|by intros ?%elem_of_nil].
    intros ->%list_elem_of_singleton. simpl. lia.
  - assert (Hstop : s' ∈ match lo with O => [c :: s] | S _ => [] end
                    → (S (length s) ≤ length s' + hi)%nat).
    { destruct lo; [|by intros ?%elem_of_nil].
      intros ->%list_elem_of_singleton. simpl. lia. }
    destruct (p c); simpl; [|done].
    destruct hi as [|hi]; [done|].
    intros [Hin|Hin]%elem_of_app; [|by apply Hstop].
    apply IH in Hin. simpl in Hin. lia.
Qed.

Lemma run_captures flag r :
  captures r = true → always_group flag (λ _, True) r.
Proof.
  unfold always_group.
  induction r as [| | |r1 IH1 r2 IH2|r1 IH1 r2 IH2| | |r IH]; simpl; try done.
  - intros Hc s s' g Hin.
    apply list_elem_of_bind in Hin as [[s1 g1] [Hin Hin1]].
    apply list_elem_of_bind in Hin as [[s2 g2] [Hin Hin2]].
    apply list_elem_of_singleton in Hin as [= -> ->].
    destruct (captures r2) eqn:Hc2.
    + destruct (IH2 eq_refl _ _ _ Hin2) as (g0 & -> & _). eauto.
    + rewrite orb_false_r in Hc.
      destruct (IH1 Hc _ _ _ Hin1) as (g0 & -> & _). destruct g2; eauto.
  - intros [Hc1 Hc2]%andb_prop s s' g [Hin|Hin]%elem_of_app; eauto.
  - intros _ s s' g Hin.
    apply list_elem_of_fmap in Hin as [[s1 g1] [[= -> ->] _]]. eauto.
Qed.

Lemma always_group_cat flag P r1 r2 :
  always_group flag P r2 → always_group flag P (Cat r1 r2).
Proof.
  intros H2 s s' g Hin. simpl in Hin.
  apply list_elem_of_bind in Hin as [[s1 g1] [Hin Hin1]].
  apply list_elem_of_bind in Hin as [[s2 g2] [Hin Hin2]].
  apply list_elem_of_singleton in Hin as [= -> ->].
  destruct (H2 _ _ _ Hin2) as (g0 & -> & HP). eauto.
Qed.

Lemma always_group_rep flag cs lo hi :
  always_group flag (λ g, (length g ≤ hi)%nat) (Group (Rep cs lo (Some hi))).
Proof.
  intros s s' g Hin. simpl in Hin.
  apply list_elem_of_fmap in Hin as [[s1 g1] [[= -> ->] Hin]].
  apply list_elem_of_fmap in Hin as [s2 [[= -> ->] Hin]].
  apply rep_bound in Hin.
  eexists; split; [done|]. rewrite length_take. lia.
Qed.

Lemma search_Some flag r text m :
  search flag r text = Some m → ∃ s s', (s', group_1 m) ∈ run flag r s.
Proof.
  induction text as [|c text IH]; simpl.
  - destruct (run flag r []) as [|[s' g] l] eqn:Hrun; [done|].
    intros [= <-]. exists [], s'. rewrite Hrun. simpl. left.
  - destruct (run flag r (c :: text)) as [|[s' g] l] eqn:Hrun; [done|].
    intros [= <-]. exists (c :: text), s'. rewrite Hrun. simpl. left.
Qed.

Lemma search_always_group flag P r text m :
  always_group flag P r → search flag r text = Some m →
  ∃ g, group_1 m = Some g ∧ P g.
Proof. intros Hr (s & s' & Hin)%search_Some. by eapply Hr. Qed.

End MatcherFacts.

(** ** The extractor *)

Section ExtractorFacts.
Context {ucd : UnicodeData}.

Lemma search_captures (flag : bool) (r : regex) (text : list N) (m : Match) :
  captures r = true → search flag r text = Some m → is_Some (group_1 m).
Proof.
  intros Hc Hs.
  destruct (search_always_group flag _ r text m (run_captures flag r Hc) Hs)
    as (g & -> & _); eauto.
Qed.

Lemma assign_group_captures (flag : bool) (r : regex) (text : list N) (m : Match)
  (fields : dict) (key : list N) :
  captures r = true → search flag r text = Some m →
  assign_group fields key m = Ok (<[key := trimmed_group flag r text]> fields).
Proof.
  intros Hc Hs. unfold assign_group, trimmed_group. rewrite Hs. simpl.
  destruct (search_captures _ _ _ _ Hc Hs) as [g ->]. done.
Qed.

Lemma trimmed_group_None (flag : bool) (r : regex) (text : list N) :
  search flag r text = None → trimmed_group flag r text = None.
Proof. unfold trimmed_group. by intros ->. Qed.

Lemma trimmed_group_Some (flag : bool) (r : regex) (text : list N) (m : Match) :
  captures r = true → search flag r text = Some m →
  is_Some (trimmed_group flag r text).
Proof.
  intros Hc Hs. unfold trimmed_group. rewrite Hs. simpl.
  destruct (search_captures _ _ _ _ Hc Hs) as [g ->]. simpl. eauto.
Qed.

Lemma amount_patterns_capture : Forall (λ p, captures p = true) amount_patterns.
Proof. repeat constructor. Qed.

Lemma first_matching_cons (p : regex) (ps : list regex) (text : list N) :
  first_matching (p :: ps) text =
    match search IGNORECASE p text with
    | Some _ => Some p
    | None => first_matching ps text
    end.
Proof.
  unfold first_matching. simpl. case_decide as Hp.
  - destruct Hp as [m ->]. done.
  - destruct (search IGNORECASE p text); [by destruct Hp|].
    by destruct (list_find _ ps) as [[i q]|].
Qed.

Lemma amount_loop_spec (ps : list regex) (text : list N) (fields : dict) :
  forallb captures ps = true →
  fields !! claim_amount = Some None →
  amount_loop ps text fields =
    Ok (<[claim_amount :=
            (p ← first_matching ps text; trimmed_group IGNORECASE p text)]> fields).
Proof.
  intros Hps Hk. induction ps as [|p ps IH].
  - simpl. by rewrite insert_id.
  - simpl in Hps. apply andb_prop in Hps as [Hp Hps].
    simpl. rewrite first_matching_cons.
    destruct (search IGNORECASE p text) as [m|] eqn:Hs.
    + simpl. by eapply assign_group_captures.
    + by apply IH.
Qed.

(** One [if m: fields[key] = m.group(1).strip()] on a key that is still
    null. *)
Lemma assign_if_match (flag : bool) (r : regex) (text : list N) (fields : dict) (key : list N) :
  captures r = true →
  fields !! key = Some None →
  match search flag r text with
  | Some m => assign_group fields key m
  | None => Ok fields
  end = Ok (<[key := trimmed_group flag r text]> fields).
Proof.
  intros Hc Hk. destruct (search flag r text) as [m|] eqn:Hs.
  - by eapply assign_group_captures.
  - rewrite trimmed_group_None by done. by rewrite insert_id.
Qed.

Lemma incident_date_spec (text : list N) (fields : dict) :
  fields !! incident_date = Some None →
  match search IGNORECASE date_of_incident text with
  | Some date_m => assign_group fields incident_date date_m
  | None =>
      match search IGNORECASE date_keyword text with
      | Some date_m => assign_group fields incident_date date_m
      | None =>
          match search NOFLAG date_bare text with
          | Some date_m => assign_group fields incident_date date_m
          | None => Ok fields
          end
      end
  end = Ok (<[incident_date := spec_incident_date text]> fields).
Proof.
  intros Hk. unfold spec_incident_date.
  destruct (search IGNORECASE date_of_incident text) as [m|] eqn:H1.
  { destruct (trimmed_group_Some _ _ _ _ (eq_refl : captures date_of_incident = true) H1)
      as [v Hv].
    rewrite (assign_group_captures _ date_of_incident _ _ _ _ eq_refl H1). by rewrite Hv. }
  rewrite (trimmed_group_None _ _ _ H1). simpl.
  destruct (search IGNORECASE date_keyword text) as [m|] eqn:H2.
  { destruct (trimmed_group_Some _ _ _ _ (eq_refl : captures date_keyword = true) H2)
      as [v Hv].
    rewrite (assign_group_captures _ date_keyword _ _ _ _ eq_refl H2). by rewrite Hv. }
  rewrite (trimmed_group_None _ _ _ H2). simpl.
  by apply assign_if_match.
Qed.

Lemma claimant_name_spec (text : list N) (fields : dict) :
  fields !! claimant_name = Some None →
  match
    match search IGNORECASE name_policy_holder text with
    | Some m => Some m
    | None => search IGNORECASE name_keyword text
    end
  with
  | Some m =>
      v ← strip_method (group_1 m);
      Ok (<[claimant_name := Some (take 80 v)]> fields)
  | None => Ok fields
  end = Ok (<[claimant_name := spec_claimant_name text]> fields).
Proof.
  intros Hk. unfold spec_claimant_name, trimmed_group.
  destruct (search IGNORECASE name_policy_holder text) as [m|] eqn:H1.
  { destruct (search_captures _ _ _ _ (eq_refl : captures name_policy_holder = true) H1)
      as [g Hg]. simpl. by rewrite Hg. }
  simpl.
  destruct (search IGNORECASE name_keyword text) as [m|] eqn:H2.
  { destruct (search_captures _ _ _ _ (eq_refl : captures name_keyword = true) H2)
      as [g Hg]. simpl. by rewrite Hg. }
  simpl. by rewrite insert_id.
Qed.

(** What [extract_key_fields] returns, field by field. *)
Lemma extract_key_fields_spec (text : list N) :
  extract_key_fields text =
    Ok (<[claimant_name := spec_claimant_name text]>
         (<[incident_date := spec_incident_date text]>
           (<[policy_number := spec_policy_number text]>
             (<[claim_amount := spec_claim_amount text]> ∅)))).
Proof.
  unfold extract_key_fields.
  rewrite amount_loop_spec by done. cbn [mbind result_bind].
  rewrite (assign_if_match IGNORECASE policy_pattern) by done.
  cbn [mbind result_bind].
  rewrite incident_date_spec by done. cbn [mbind result_bind].
  rewrite claimant_name_spec by done.
  reflexivity.
Qed.

End ExtractorFacts.
(** ** The difference computer *)

Section DifferenceFacts.
Context {order : SetIteration}.

Lemma diff_step_difference_at (n e : dict) (diffs : list difference) (key : list N) :
  diff_step n e diffs key = diffs ++ option_list (difference_at n e key).
Proof.
  unfold diff_step, difference_at.
  destruct (get e key) as [ov|], (get n key) as [nv|];
    repeat case_decide; simpl; rewrite ?app_nil_r; congruence.
Qed.

Lemma diff_loop (n e : dict) (keys : list (list N)) (diffs : list difference) :
  fold_left (diff_step n e) keys diffs = diffs ++ omap (difference_at n e) keys.
Proof.
  revert diffs. induction keys as [|key keys IH]; intros diffs; simpl.
  - by rewrite app_nil_r.
  - rewrite IH, diff_step_difference_at, <-app_assoc. f_equal.
    by destruct (difference_at n e key).
Qed.

Lemma compute_differences_omap (n e : dict) :
  compute_differences n e = omap (difference_at n e) (iter_union (dom n) (dom e)).
Proof. unfold compute_differences. by rewrite diff_loop. Qed.

Lemma difference_at_Some (n e : dict) (key : list N) (d : difference) :
  difference_at n e key = Some d ↔
    field d = key ∧ get e key ≠ get n key
    ∧ old_value d = str_or_dash (get e key) ∧ new_value d = str_or_dash (get n key).
Proof.
  unfold difference_at. case_decide as Hne; split.
  - by intros [= <-].
  - destruct d as [f o w]; simpl. by intros (-> & _ & -> & ->).
  - done.
  - by intros (_ & ? & _).
Qed.

Lemma get_differ_dom (n e : dict) (key : list N) :
  get e key ≠ get n key → key ∈ dom n ∪ dom e.
Proof.
  unfold get. intros Hne. apply elem_of_union. rewrite !elem_of_dom.
  destruct (n !! key); [left; eauto|].
  destruct (e !! key); [right; eauto|done].
Qed.

Lemma iter_union_elem_of (X Y : gset (list N)) (key : list N) :
  key ∈ iter_union X Y ↔ key ∈ X ∪ Y.
Proof. by rewrite iter_union_perm, elem_of_elements. Qed.

Lemma iter_union_NoDup (X Y : gset (list N)) : NoDup (iter_union X Y).
Proof. rewrite iter_union_perm. apply NoDup_elements. Qed.

Lemma fields_of_differences (n e : dict) (keys : list (list N)) :
  field <$> omap (difference_at n e) keys = filter (λ key, get e key ≠ get n key) keys.
Proof.
  induction keys as [|key keys IH]; [done|].
  rewrite filter_cons, <-IH. cbn [omap list_omap]. unfold difference_at at 1.
  by case_decide.
Qed.

Lemma compute_differences_fields_NoDup (n e : dict) :
  NoDup (field <$> compute_differences n e).
Proof.
  rewrite compute_differences_omap, fields_of_differences.
  apply NoDup_filter, iter_union_NoDup.
Qed.

Lemma difference_at_swap (a b : dict) (key : list N) :
  difference_at b a key = swap <$> difference_at a b key.
Proof. unfold difference_at. by repeat case_decide. Qed.

Lemma difference_at_same (a : dict) (key : list N) : difference_at a a key = None.
Proof. unfold difference_at. by case_decide. Qed.

Lemma critical_fields_as_set (f : list N) :
  f ∈ CRITICAL_CLAIM_FIELDS ↔ f ∈ critical_field_set.
Proof.
  unfold CRITICAL_CLAIM_FIELDS, critical_field_set.
  rewrite !elem_of_cons, elem_of_nil, !elem_of_union, !elem_of_singleton. tauto.
Qed.

Lemma compute_differences_same (a : dict) : compute_differences a a = [].
Proof.
  rewrite compute_differences_omap.
  induction (iter_union (dom a) (dom a)) as [|key keys IH]; [done|].
  simpl. by rewrite difference_at_same.
Qed.

End DifferenceFacts.

(** ** Properties of the specification *)

Section ExtractorProperties.
Context {ucd : UnicodeData}.

Lemma trimmed_group_search (flag : bool) (r : regex) (text : list N) :
  captures r = true →
  trimmed_group flag r text = None ↔ search flag r text = None.
Proof.
  intros Hc. split; [|apply trimmed_group_None].
  destruct (search flag r text) as [m|] eqn:Hs; [|done].
  destruct (trimmed_group_Some _ _ _ _ Hc Hs) as [v ->]. done.
Qed.

Lemma trimmed_group_bound (flag : bool) (P : list N → Prop) (r : regex)
  (text v : list N) :
  always_group flag P r → trimmed_group flag r text = Some v →
  ∃ g, P g ∧ v = strip g.
Proof.
  intros Hr. unfold trimmed_group.
  destruct (search flag r text) as [m|] eqn:Hs; [|done]. simpl.
  destruct (search_always_group _ _ _ _ _ Hr Hs) as (g & -> & HP).
  intros [= <-]. eauto.
Qed.

Lemma name_policy_holder_bound :
  always_group IGNORECASE (λ g, (length g ≤ 50)%nat) name_policy_holder.
Proof.
  unfold name_policy_holder. cbn [cat].
  repeat apply always_group_cat. apply always_group_rep.
Qed.

Lemma name_keyword_bound :
  always_group IGNORECASE (λ g, (length g ≤ 50)%nat) name_keyword.
Proof.
  unfold name_keyword. cbn [cat].
  repeat apply always_group_cat. apply always_group_rep.
Qed.

(** The first matching pattern, said with positions: no pattern before it
    matches. *)
Lemma first_matching_Some (ps : list regex) (text : list N) (p : regex) :
  first_matching ps text = Some p ↔
    ∃ i, ps !! i = Some p ∧ is_Some (search IGNORECASE p text)
         ∧ ∀ j q, ps !! j = Some q → (j < i)%nat → search IGNORECASE q text = None.
Proof.
  unfold first_matching. split.
  - destruct (list_find _ ps) as [[i q]|] eqn:Hf; [|done].
    intros [= <-]. apply list_find_Some in Hf as (Hi & Hq & Hbefore).
    exists i. repeat split; [done..|].
    intros j q' Hj Hlt. specialize (Hbefore j q' Hj Hlt).
    by destruct (search IGNORECASE q' text); [destruct Hbefore|].
  - intros (i & Hi & Hp & Hbefore).
    assert (list_find (λ p, is_Some (search IGNORECASE p text)) ps = Some (i, p))
      as ->; [|done].
    apply list_find_Some. repeat split; [done..|].
    intros j q Hj Hlt. rewrite (Hbefore j q Hj Hlt). by intros [? ?].
Qed.

Lemma first_matching_None (ps : list regex) (text : list N) :
  first_matching ps text = None ↔ Forall (λ p, search IGNORECASE p text = None) ps.
Proof.
  unfold first_matching. rewrite fmap_None, list_find_None.
  apply Forall_iff. intros p.
  destruct (search IGNORECASE p text); split; try done.
  - intros []. eauto.
Qed.

(** C1: on the text of scenario A the extractor returns the claimant name,
    the incident date and the amount of the scenario, but the policy number
    it returns is "Holder" and not "ABC-123": the leftmost match of the
    policy pattern starts at "Policy Holder". *)
Theorem scenario_A_policy_number_Holder :
  extract_key_fields scenario_A = Ok scenario_A_fields
  ∧ search IGNORECASE policy_pattern scenario_A = Some (MkMatch (Some (py "Holder")))
  ∧ scenario_A_fields !! claimant_name = Some (Some (py "John Smith"))
  ∧ scenario_A_fields !! incident_date = Some (Some (py "12/05/2023"))
  ∧ scenario_A_fields !! claim_amount = Some (Some (py "54,300"))
  ∧ scenario_A_fields !! policy_number = Some (Some (py "Holder"))
  ∧ scenario_A_fields !! policy_number ≠ Some (Some (py "ABC-123")).
Proof. repeat split; by vm_compute. Qed.

(** C3: the six amount patterns are tried in the order treatment cost, Rs,
    rupee sign, number with unit, claim amount, amount, ignoring case; the
    claim amount returned is the trimmed first group of the first pattern of
    that order that matches, and null when none matches. *)
Theorem claim_amount_first_matching_pattern (text : list N) :
  amount_patterns =
    [amount_treatment_cost; amount_rs; amount_rupee; amount_unit;
     amount_claim_amount; amount_amount]
  ∧ ∃ fields, extract_key_fields text = Ok fields
      ∧ fields !! claim_amount = Some (spec_claim_amount text)
      ∧ (∀ i p,
           amount_patterns !! i = Some p →
           is_Some (search IGNORECASE p text) →
           (∀ j q, amount_patterns !! j = Some q → (j < i)%nat →
                   search IGNORECASE q text = None) →
           ∃ g, search IGNORECASE p text = Some (MkMatch (Some g))
                ∧ fields !! claim_amount = Some (Some (strip g)))
      ∧ (Forall (λ p, search IGNORECASE p text = None) amount_patterns →
         fields !! claim_amount = Some None).
Proof.
  split; [done|]. eexists. split; [apply extract_key_fields_spec|].
  change ((<[claimant_name := spec_claimant_name text]>
            (<[incident_date := spec_incident_date text]>
              (<[policy_number := spec_policy_number text]>
                (<[claim_amount := spec_claim_amount text]> (∅ : dict)))))
          !! claim_amount) with (Some (spec_claim_amount text)).
  split; [done|]. split.
  - intros i p Hi Hp Hbefore.
    assert (first_matching amount_patterns text = Some p) as Hfirst
      by (apply first_matching_Some; eauto).
    assert (captures p = true) as Hc.
    { apply (proj1 (Forall_forall (λ p, captures p = true) amount_patterns)
               amount_patterns_capture).
      by eapply list_elem_of_lookup_2. }
    destruct Hp as [[g] Hs].
    destruct (search_captures _ _ _ _ Hc Hs) as [g0 Hg]. simpl in Hg. subst g.
    exists g0. split; [done|].
    unfold spec_claim_amount, trimmed_group. rewrite Hfirst. simpl.
    by rewrite Hs.
  - intros Hnone%first_matching_None.
    unfold spec_claim_amount. by rewrite Hnone.
Qed.

(** C6: the record returned for any text has exactly the four keys
    claim_amount, claimant_name, incident_date and policy_number, each bound
    to null or to a string. *)
Theorem extract_key_fields_four_keys (text : list N) :
  ∃ fields, extract_key_fields text = Ok fields
    ∧ dom fields = field_record_keys
    ∧ ∀ key, key ∈ field_record_keys →
        ∃ v : option (list N), fields !! key = Some v ∧ (v = None ∨ ∃ s, v = Some s).
Proof.
  eexists. split; [apply extract_key_fields_spec|].
  assert (∀ m : dict,
    dom (<[claimant_name := spec_claimant_name text]>
           (<[incident_date := spec_incident_date text]>
             (<[policy_number := spec_policy_number text]>
               (<[claim_amount := spec_claim_amount text]> m))))
    = field_record_keys ∪ dom m) as Hdom.
  { intros m. rewrite !dom_insert_L. unfold field_record_keys.
    apply set_eq. intros key. rewrite !elem_of_union, !elem_of_singleton. tauto. }
  split.
  - rewrite Hdom, dom_empty_L. apply (right_id_L ∅ (∪)).
  - intros key Hkey.
    assert (is_Some ((<[claimant_name := spec_claimant_name text]>
           (<[incident_date := spec_incident_date text]>
             (<[policy_number := spec_policy_number text]>
               (<[claim_amount := spec_claim_amount text]> (∅ : dict))))) !! key))
      as [v Hv].
    { apply elem_of_dom. rewrite Hdom. by apply elem_of_union_l. }
    exists v. split; [done|]. destruct v; eauto.
Qed.

(** C10: a claimant name that is not null has at most 50 characters: it is
    the trimmed text of a group of at most 50 characters, which the cut to 80
    characters leaves as it is; and it can be the empty string, when the
    group holds white space only. *)
Theorem claimant_name_at_most_50 :
  (∀ (text : list N) (fields : dict) (v : list N),
     extract_key_fields text = Ok fields →
     fields !! claimant_name = Some (Some v) →
     (length v ≤ 50)%nat
     ∧ ∃ g, (length g ≤ 50)%nat ∧ v = take 80 (strip g) ∧ take 80 (strip g) = strip g)
  ∧ ∃ (text : list N) (fields : dict),
      extract_key_fields text = Ok fields
      ∧ search IGNORECASE name_keyword text = Some (MkMatch (Some (py "  ")))
      ∧ fields !! claimant_name = Some (Some []).
Proof.
  split.
  - intros text fields v. rewrite extract_key_fields_spec. intros [= <-].
    rewrite lookup_insert_eq. intros [= Hv]. unfold spec_claimant_name in Hv.
    assert (∃ g, (length g ≤ 50)%nat ∧ v = take 80 (strip g)) as (g & Hg & ->).
    { destruct (trimmed_group IGNORECASE name_policy_holder text) as [v1|] eqn:H1.
      - apply (trimmed_group_bound _ _ _ _ _ name_policy_holder_bound) in H1
          as (g & Hg & ->).
        simpl in Hv. injection Hv as <-. eauto.
      - simpl in Hv.
        destruct (trimmed_group IGNORECASE name_keyword text) as [v2|] eqn:H2;
          [|done].
        apply (trimmed_group_bound _ _ _ _ _ name_keyword_bound) in H2
          as (g & Hg & ->).
        simpl in Hv. injection Hv as <-. eauto. }
    pose proof (strip_length g) as Hs.
    rewrite take_ge by lia. split; [lia|]. exists g. by rewrite take_ge by lia.
  - exists (py "name:   "). eexists. split; [apply extract_key_fields_spec|].
    split; by vm_compute.
Qed.

End ExtractorProperties.

(** The bound of C10 on the text of scenario A, whose claimant name is
    "John Smith". *)
Lemma claimant_name_at_most_50_witness :
  @extract_key_fields ascii_digits_only scenario_A = Ok scenario_A_fields
  ∧ scenario_A_fields !! claimant_name = Some (Some (py "John Smith"))
  ∧ (length (py "John Smith") ≤ 50)%nat.
Proof.
  assert (@extract_key_fields ascii_digits_only scenario_A = Ok scenario_A_fields)
    as H1 by (by vm_compute).
  assert (scenario_A_fields !! claimant_name = Some (Some (py "John Smith")))
    as H2 by (by vm_compute).
  split; [exact H1|]. split; [exact H2|].
  exact (proj1 (proj1 (@claimant_name_at_most_50 ascii_digits_only)
                  scenario_A scenario_A_fields (py "John Smith") H1 H2)).
Defined.

Section DifferenceProperties.
Context {order : SetIteration}.

(** C4: [compute_differences] has one entry for every key of either record
    whose two values differ, a null value against a string included, and
    none for any other key; no key has two entries; and an entry holds the
    key with the two values of that key, a null value written as the dash. *)
Theorem compute_differences_entries (new_fields existing_fields : dict) :
  NoDup (field <$> compute_differences new_fields existing_fields)
  ∧ (∀ key : list N,
       key ∈ field <$> compute_differences new_fields existing_fields
       ↔ key ∈ dom new_fields ∪ dom existing_fields
         ∧ get existing_fields key ≠ get new_fields key)
  ∧ (∀ d : difference,
       d ∈ compute_differences new_fields existing_fields →
       old_value d = str_or_dash (get existing_fields (field d))
       ∧ new_value d = str_or_dash (get new_fields (field d)))
  ∧ str_or_dash None = [em_dash]
  ∧ ∀ s : list N, str_or_dash (Some s) = s.
Proof.
  split; [apply compute_differences_fields_NoDup|].
  rewrite compute_differences_omap, fields_of_differences.
  split; [|split; [|done]].
  - intros key. rewrite list_elem_of_filter, iter_union_elem_of.
    tauto.
  - intros d (key & _ & Hd)%list_elem_of_omap.
    apply difference_at_Some in Hd as (-> & _ & -> & ->). done.
Qed.

(** C7: exchanging the two records exchanges the old and the new value of
    every entry and changes nothing else: the entries of
    [compute_differences b a] are those of [compute_differences a b] with the
    two values exchanged, so both calls report the same fields. *)
Theorem compute_differences_swap (a b : dict) :
  swap <$> compute_differences a b ≡ₚ compute_differences b a
  ∧ (∀ key : list N,
       key ∈ field <$> compute_differences a b
       ↔ key ∈ field <$> compute_differences b a)
  ∧ ∀ d : difference,
      d ∈ compute_differences a b ↔ swap d ∈ compute_differences b a.
Proof.
  assert (swap <$> compute_differences a b ≡ₚ compute_differences b a) as Hperm.
  { rewrite !compute_differences_omap, list_fmap_omap.
    rewrite (list_omap_ext _ (difference_at b a) _ (iter_union (dom a) (dom b))).
    - apply omap_Permutation.
      by rewrite !iter_union_perm, (comm_L (∪) (dom a)).
    - apply Forall_Forall2_diag, Forall_forall. intros key _.
      symmetry. apply difference_at_swap. }
  assert (Inj (=) (=) swap) as Hinj.
  { intros [f1 o1 w1] [f2 o2 w2]. unfold swap. simpl. congruence. }
  split; [done|]. split.
  - intros key. rewrite <-Hperm.
    assert (∀ l, field <$> (swap <$> l) = field <$> l) as ->; [|done].
    induction l as [|d l IH]; [done|]. csimpl. by rewrite IH.
  - intros d. rewrite <-Hperm. by rewrite (list_elem_of_fmap_inj swap).
Qed.

(** C8: a record compared with itself has no difference entry. *)
Theorem compute_differences_self (a : dict) : compute_differences a a = [].
Proof. apply compute_differences_same. Qed.

(** C2: the classifier answers true exactly when the number of entries of
    [compute_differences] whose field is one of policy_number, claimant_name,
    claim_amount and incident_date is at least [min_differences]; a call
    without the argument is a call with 2. *)
Theorem classifier_counts_critical_differences
  (new_fields existing_fields : dict) (min_differences : Z) :
  (key_fields_indicate_different_claim new_fields existing_fields (Some min_differences)
     = true
   ↔ (min_differences
        ≤ Z.of_nat (critical_count (compute_differences new_fields existing_fields)))%Z)
  ∧ key_fields_indicate_different_claim new_fields existing_fields None
    = key_fields_indicate_different_claim new_fields existing_fields (Some 2%Z).
Proof.
  split; [|done].
  unfold key_fields_indicate_different_claim, critical_count. simpl.
  rewrite (list_filter_iff _ (λ d, field d ∈ critical_field_set))
    by (intros d; apply critical_fields_as_set).
  rewrite Z.geb_le. done.
Qed.

(** C9: with [min_differences] at most 0 the classifier answers true for any
    two records, also for a record compared with itself, where there is no
    difference entry. *)
Theorem classifier_true_below_one
  (new_fields existing_fields : dict) (min_differences : Z) :
  (min_differences ≤ 0)%Z →
  key_fields_indicate_different_claim new_fields existing_fields (Some min_differences)
    = true
  ∧ key_fields_indicate_different_claim new_fields new_fields (Some min_differences)
    = true
  ∧ compute_differences new_fields new_fields = [].
Proof.
  intros Hk.
  assert (∀ n e : dict,
    key_fields_indicate_different_claim n e (Some min_differences) = true) as Htrue.
  { intros n e. unfold key_fields_indicate_different_claim. simpl.
    apply Z.geb_le. lia. }
  split; [apply Htrue|]. split; [apply Htrue|]. apply compute_differences_same.
Qed.

End DifferenceProperties.

(** C9 at two records that differ in the claim amount only, and at the
    thresholds 0. *)
Lemma classifier_true_below_one_witness :
  (0 ≤ 0)%Z
  ∧ @key_fields_indicate_different_claim elements_order scenario_A_fields
      (<[claim_amount := Some (py "1,000")]> scenario_A_fields) (Some 0%Z) = true.
Proof.
  split; [lia|].
  apply (@classifier_true_below_one elements_order scenario_A_fields
           (<[claim_amount := Some (py "1,000")]> scenario_A_fields) 0%Z).
  lia.
Defined.

Section Totality.
Context {ucd : UnicodeData} {order : SetIteration}.

Lemma or_else_None {A} (x y : option A) : or_else x y = None ↔ x = None ∧ y = None.
Proof. destruct x; simpl; split; try done; [by intros [? _]|by intros [_ ?]]. Qed.

Lemma spec_claim_amount_None (text : list N) :
  spec_claim_amount text = None
  ↔ Forall (λ p, search IGNORECASE p text = None) amount_patterns.
Proof.
  rewrite <-first_matching_None. unfold spec_claim_amount.
  destruct (first_matching amount_patterns text) as [p|] eqn:Hp; simpl; [|done].
  apply first_matching_Some in Hp as (i & Hi & Hs & _).
  assert (captures p = true) as Hc.
  { apply (proj1 (Forall_forall (λ p, captures p = true) amount_patterns)
             amount_patterns_capture).
    by eapply list_elem_of_lookup_2. }
  rewrite trimmed_group_search by done. split; [|done].
  intros Hnone. rewrite Hnone in Hs. by destruct Hs.
Qed.

(** C5: no input makes one of the three functions raise.  The extractor
    returns a record for every text, and in it a field is null exactly when
    none of its patterns matches; the difference computer and the classifier,
    which contain no operation that can fail on field records, return a list
    and a boolean for all records and thresholds, given or left out. *)
Theorem functions_never_raise :
  (∀ text : list N, ∃ fields : dict,
      extract_key_fields text = Ok fields
      ∧ (fields !! claim_amount = Some None
         ↔ Forall (λ p, search IGNORECASE p text = None) amount_patterns)
      ∧ (fields !! policy_number = Some None
         ↔ search IGNORECASE policy_pattern text = None)
      ∧ (fields !! incident_date = Some None
         ↔ search IGNORECASE date_of_incident text = None
           ∧ search IGNORECASE date_keyword text = None
           ∧ search NOFLAG date_bare text = None)
      ∧ (fields !! claimant_name = Some None
         ↔ search IGNORECASE name_policy_holder text = None
           ∧ search IGNORECASE name_keyword text = None))
  ∧ ∀ (new_fields existing_fields : dict) (min_differences : option Z),
      ∃ (diffs : list difference) (answer : bool),
        compute_differences new_fields existing_fields = diffs
        ∧ key_fields_indicate_different_claim new_fields existing_fields min_differences
          = answer.
Proof.
  split; [|by eauto].
  intros text. eexists. split; [apply extract_key_fields_spec|].
  assert (∀ x : option (list N), Some x = Some None ↔ x = None) as Hinj
    by (intros x; split; congruence).
  split; [|split; [|split]].
  - change (Some (spec_claim_amount text) = Some None ↔
            Forall (λ p, search IGNORECASE p text = None) amount_patterns).
    by rewrite Hinj, spec_claim_amount_None.
  - change (Some (spec_policy_number text) = Some None ↔
            search IGNORECASE policy_pattern text = None).
    rewrite Hinj. by apply trimmed_group_search.
  - change (Some (spec_incident_date text) = Some None ↔
            search IGNORECASE date_of_incident text = None
            ∧ search IGNORECASE date_keyword text = None
            ∧ search NOFLAG date_bare text = None).
    rewrite Hinj. unfold spec_incident_date.
    by rewrite !or_else_None, !trimmed_group_search.
  - change (Some (spec_claimant_name text) = Some None ↔
            search IGNORECASE name_policy_holder text = None
            ∧ search IGNORECASE name_keyword text = None).
    rewrite Hinj. unfold spec_claimant_name.
    by rewrite fmap_None, or_else_None, !trimmed_group_search.
Qed.

End Totality.

(** ** Scenarios of the specification *)

Section Scenarios.
Context {ucd : UnicodeData} {order : SetIteration}.

(** The answer of the classifier does not depend on the order in which the
    keys are visited. *)
Lemma classifier_order_independent (order' : SetIteration)
  (new_fields existing_fields : dict) (min_differences : option Z) :
  @key_fields_indicate_different_claim order new_fields existing_fields min_differences
  = @key_fields_indicate_different_claim order' new_fields existing_fields min_differences.
Proof.
  unfold key_fields_indicate_different_claim. cbv zeta.
  assert (@compute_differences order new_fields existing_fields
          ≡ₚ @compute_differences order' new_fields existing_fields) as Hperm.
  { rewrite !compute_differences_omap. apply omap_Permutation.
    by rewrite !iter_union_perm. }
  by rewrite Hperm.
Qed.

(** At most four entries have a critical field. *)
Lemma critical_count_at_most_4 (new_fields existing_fields : dict) :
  (critical_count (compute_differences new_fields existing_fields) ≤ 4)%nat.
Proof.
  unfold critical_count.
  set (l := compute_differences new_fields existing_fields).
  set (P := λ d : difference, field d ∈ critical_field_set).
  rewrite <-(length_fmap field).
  change 4%nat with (length (elements critical_field_set)).
  apply submseteq_length, NoDup_submseteq.
  - apply (sublist_NoDup _ (field <$> l)).
    + apply compute_differences_fields_NoDup.
    + apply fmap_sublist, (sublist_filter P).
  - intros key (d & -> & [Hd _]%list_elem_of_filter)%list_elem_of_fmap.
    by apply elem_of_elements.
Qed.

(** Scenario B: a text without any recognizable pattern gives four nulls. *)
Lemma scenario_B_all_null : extract_key_fields (py "hello world") = Ok all_null.
Proof. by vm_compute. Qed.

(** Scenario C: two critical differences reach the threshold 2. *)
Lemma scenario_C_two_differences :
  key_fields_indicate_different_claim other_amount_and_date scenario_A_fields (Some 2%Z)
  = true.
Proof. rewrite (classifier_order_independent elements_order). by vm_compute. Qed.

(** Scenario D: one critical difference does not reach the threshold 2. *)
Lemma scenario_D_one_difference :
  key_fields_indicate_different_claim other_amount scenario_A_fields (Some 2%Z) = false.
Proof. rewrite (classifier_order_independent elements_order). by vm_compute. Qed.


End Scenarios.

(** ** Further facts on strings *)

Lemma lstrip_split (s : list N) :
  ∃ a, s = a ++ lstrip s ∧ Forall (λ c, isspace c = true) a.
Proof.
  induction s as [|c s (a & Ha & Hsp)]; simpl.
  - by exists [].
  - destruct (isspace c) eqn:Hc.
    + exists (c :: a). split; [by rewrite <-app_comm_cons, <-Ha|].
      by constructor.
    + by exists [].
Qed.

Lemma lstrip_starts_clean (s : list N) : starts_clean (lstrip s).
Proof.
  induction s as [|c s IH]; simpl; [done|].
  by destruct (isspace c) eqn:Hc.
Qed.

Lemma lstrip_clean (s : list N) : starts_clean s → lstrip s = s.
Proof. destruct s as [|c s]; simpl; [done|]. by intros ->. Qed.

Lemma starts_clean_app (s t : list N) :
  starts_clean (s ++ t) → starts_clean s.
Proof. by destruct s. Qed.

Lemma strip_substring (s : list N) : substring (strip s) s.
Proof.
  unfold strip.
  destruct (lstrip_split s) as (a & Ha & _).
  destruct (lstrip_split (rev (lstrip s))) as (b & Hb & _).
  exists a, (rev b). rewrite Ha at 1. f_equal.
  rewrite <-(rev_involutive (lstrip s)), Hb at 1.
  by rewrite rev_app_distr.
Qed.

Lemma strip_starts_clean (s : list N) : starts_clean (strip s).
Proof.
  unfold strip.
  destruct (lstrip_split (rev (lstrip s))) as (b & Hb & _).
  apply (starts_clean_app _ (rev b)).
  rewrite <-rev_app_distr, <-Hb, rev_involutive.
  apply lstrip_starts_clean.
Qed.

Lemma strip_ends_clean (s : list N) : starts_clean (rev (strip s)).
Proof. unfold strip. rewrite rev_involutive. apply lstrip_starts_clean. Qed.

Lemma strip_clean (s : list N) :
  starts_clean s → starts_clean (rev s) → strip s = s.
Proof.
  intros H1 H2. unfold strip.
  by rewrite (lstrip_clean s), (lstrip_clean (rev s)), rev_involutive.
Qed.

Lemma strip_strip (s : list N) : strip (strip s) = strip s.
Proof. apply strip_clean; [apply strip_starts_clean|apply strip_ends_clean]. Qed.

Lemma substring_Forall (Q : N → Prop) (v s : list N) :
  substring v s → Forall Q s → Forall Q v.
Proof.
  intros (a & b & ->) H.
  apply Forall_app in H as [_ H]. by apply Forall_app in H as [H _].
Qed.

Lemma substring_trans (u v w : list N) :
  substring u v → substring v w → substring u w.
Proof.
  intros (a & b & ->) (c & d & ->). exists (c ++ a), (b ++ d).
  by rewrite <-!app_assoc.
Qed.

Lemma take_substring (n : nat) (s : list N) : substring (take n s) s.
Proof. exists [], (drop n s). simpl. by rewrite take_drop. Qed.

Lemma all_clean_strip (s : list N) :
  Forall (λ c, isspace c = false) s → strip s = s.
Proof.
  intros H. apply strip_clean.
  - destruct s as [|c s]; [done|]. by apply Forall_cons in H as [? _].
  - assert (Forall (λ c, isspace c = false) (rev s)) as H'
      by (by apply Forall_rev).
    destruct (rev s) as [|c t]; [done|]. by apply Forall_cons in H' as [? _].
Qed.

(** ** Further facts on the matcher *)

Section MatcherShapes.
Context {ucd : UnicodeData}.

Lemma rep_taken (p : N → bool) (lo : nat) (hi : option nat) (s s' : list N) :
  s' ∈ rep p lo hi s →
  ∃ pre, s = pre ++ s' ∧ Forall (λ c, p c = true) pre ∧ (lo ≤ length pre)%nat
         ∧ ∀ m, hi = Some m → (length pre ≤ m)%nat.
Proof.
  revert lo hi. induction s as [|c s IH]; intros lo hi.
  - simpl. destruct lo; [|by intros ?%elem_of_nil].
    intros ->%list_elem_of_singleton. exists []. repeat split; simpl; [done|lia|lia].
  - assert (s' ∈ match lo with O => [c :: s] | S _ => [] end →
            ∃ pre, c :: s = pre ++ s' ∧ Forall (λ c, p c = true) pre
                   ∧ (lo ≤ length pre)%nat
                   ∧ ∀ m, hi = Some m → (length pre ≤ m)%nat) as Hstop.
    { destruct lo; [|by intros ?%elem_of_nil].
      intros ->%list_elem_of_singleton. exists [].
      repeat split; simpl; [done|lia|lia]. }
    simpl. destruct (p c) eqn:Hc; simpl; [|done].
    destruct hi as [[|h]|]; simpl; [done| |].
    + intros [Hin|Hin]%elem_of_app; [|by apply Hstop].
      apply IH in Hin as (pre & -> & Hall & Hlo & Hhi).
      exists (c :: pre). repeat split; simpl; [by constructor|lia|].
      intros m [= <-]. specialize (Hhi h eq_refl). lia.
    + intros [Hin|Hin]%elem_of_app; [|by apply Hstop].
      apply IH in Hin as (pre & -> & Hall & Hlo & Hhi).
      exists (c :: pre). repeat split; simpl; [by constructor|lia|done].
Qed.

(** What every match takes from the input. *)
Lemma run_taken (flag : bool) (Q : N → Prop) (r : regex) :
  chars_in flag Q r →
  ∀ s s' g, (s', g) ∈ run flag r s → ∃ pre, taken flag Q r s pre s'.
Proof.
  unfold taken.
  induction r as [|l|cs|r1 IH1 r2 IH2|r1 IH1 r2 IH2|r IH|cs lo hi|r IH];
    simpl; intros HQ s s' g Hin.
  - apply list_elem_of_singleton in Hin as [= -> ->]. exists [].
    repeat split; simpl; [done|lia|intros m [= <-]; lia].
  - destruct s as [|c s]; [by apply elem_of_nil in Hin|].
    destruct (lit_match flag l c) eqn:Hc; [|by apply elem_of_nil in Hin].
    apply list_elem_of_singleton in Hin as [= -> ->]. exists [c].
    repeat split; simpl; [by repeat constructor; auto|lia|intros m [= <-]; lia].
  - destruct s as [|c s]; [by apply elem_of_nil in Hin|].
    destruct (in_charset flag cs c) eqn:Hc; [|by apply elem_of_nil in Hin].
    apply list_elem_of_singleton in Hin as [= -> ->]. exists [c].
    repeat split; simpl; [by repeat constructor; auto|lia|intros m [= <-]; lia].
  - destruct HQ as [HQ1 HQ2].
    apply list_elem_of_bind in Hin as [[s1 g1] [Hin Hin1]].
    apply list_elem_of_bind in Hin as [[s2 g2] [Hin Hin2]].
    apply list_elem_of_singleton in Hin as [= -> ->].
    destruct (IH1 HQ1 _ _ _ Hin1) as (p1 & -> & Hall1 & Hlo1 & Hhi1).
    destruct (IH2 HQ2 _ _ _ Hin2) as (p2 & -> & Hall2 & Hlo2 & Hhi2).
    exists (p1 ++ p2). rewrite length_app.
    repeat split; [by rewrite app_assoc|by apply Forall_app|lia|].
    intros m. destruct (max_len r1) as [m1|]; [|done].
    destruct (max_len r2) as [m2|]; [|done]. intros [= <-].
    specialize (Hhi1 m1 eq_refl). specialize (Hhi2 m2 eq_refl). lia.
  - destruct HQ as [HQ1 HQ2].
    apply elem_of_app in Hin as [Hin|Hin].
    + destruct (IH1 HQ1 _ _ _ Hin) as (p1 & -> & Hall1 & Hlo1 & Hhi1).
      exists p1. repeat split; [done|lia|].
      intros m. destruct (max_len r1) as [m1|]; [|done].
      destruct (max_len r2) as [m2|]; [|done]. intros [= <-].
      specialize (Hhi1 m1 eq_refl). lia.
    + destruct (IH2 HQ2 _ _ _ Hin) as (p2 & -> & Hall2 & Hlo2 & Hhi2).
      exists p2. repeat split; [done|lia|].
      intros m. destruct (max_len r1) as [m1|]; [|done].
      destruct (max_len r2) as [m2|]; [|done]. intros [= <-].
      specialize (Hhi2 m2 eq_refl). lia.
  - apply elem_of_app in Hin as [Hin|Hin].
    + destruct (IH HQ _ _ _ Hin) as (p1 & -> & Hall1 & Hlo1 & Hhi1).
      exists p1. repeat split; [done|lia|done].
    + apply list_elem_of_singleton in Hin as [= -> ->]. exists [].
      repeat split; simpl; [done|lia|intros; lia].
  - apply list_elem_of_fmap in Hin as [s1 [[= -> ->] Hin]].
    apply rep_taken in Hin as (pre & -> & Hall & Hlo & Hhi).
    exists pre. repeat split; [|done|done].
    eapply Forall_impl; [done|]. simpl. auto.
  - apply list_elem_of_fmap in Hin as [[s1 g1] [[= -> ->] Hin]].
    by apply (IH HQ _ _ _ Hin).
Qed.

Lemma chars_in_True (flag : bool) (r : regex) : chars_in flag (λ _, True) r.
Proof. induction r; simpl; auto. Qed.

(** The input left is an end of the input given. *)
Lemma run_suffix (flag : bool) (r : regex) (s s' : list N) (g : option (list N)) :
  (s', g) ∈ run flag r s → ∃ pre, s = pre ++ s'.
Proof.
  intros Hin.
  destruct (run_taken flag _ r (chars_in_True flag r) _ _ _ Hin)
    as (pre & -> & _). eauto.
Qed.

(** The text of the group is what the pattern in the group took. *)
Lemma run_group (flag : bool) (Q : N → Prop) (r : regex)
  (s s' : list N) (g : option (list N)) :
  chars_in flag Q r → (s', g) ∈ run flag (Group r) s →
  ∃ pre, g = Some pre ∧ taken flag Q r s pre s'.
Proof.
  intros HQ Hin. simpl in Hin.
  apply list_elem_of_fmap in Hin as [[s1 g1] [[= -> ->] Hin]].
  destruct (run_taken flag Q r HQ _ _ _ Hin) as (pre & Hpre).
  exists pre. split; [|done]. destruct Hpre as (-> & _).
  by rewrite length_app, Nat.add_sub, take_app_length.
Qed.

Lemma always_group_Group (flag : bool) (Q : N → Prop) (r : regex) :
  chars_in flag Q r →
  always_group flag
    (λ g, Forall Q g ∧ (min_len r ≤ length g)%nat
          ∧ ∀ m, max_len r = Some m → (length g ≤ m)%nat)
    (Group r).
Proof.
  intros HQ s s' g Hin.
  destruct (run_group _ _ _ _ _ _ HQ Hin) as (pre & -> & _ & H). eauto.
Qed.

Lemma run_no_group (flag : bool) (r : regex) (s s' : list N) (g : option (list N)) :
  has_group r = false → (s', g) ∈ run flag r s → g = None.
Proof.
  revert s s' g.
  induction r as [|l|cs|r1 IH1 r2 IH2|r1 IH1 r2 IH2|r IH|cs lo hi|r IH];
    simpl; intros s s' g Hg Hin; try done.
  - by apply list_elem_of_singleton in Hin as [= -> ->].
  - destruct s as [|c s]; [by apply elem_of_nil in Hin|].
    destruct (lit_match flag l c); [|by apply elem_of_nil in Hin].
    by apply list_elem_of_singleton in Hin as [= -> ->].
  - destruct s as [|c s]; [by apply elem_of_nil in Hin|].
    destruct (in_charset flag cs c); [|by apply elem_of_nil in Hin].
    by apply list_elem_of_singleton in Hin as [= -> ->].
  - apply orb_false_elim in Hg as [Hg1 Hg2].
    apply list_elem_of_bind in Hin as [[s1 g1] [Hin Hin1]].
    apply list_elem_of_bind in Hin as [[s2 g2] [Hin Hin2]].
    apply list_elem_of_singleton in Hin as [= -> ->].
    by rewrite (IH2 _ _ _ Hg2 Hin2), (IH1 _ _ _ Hg1 Hin1).
  - apply orb_false_elim in Hg as [Hg1 Hg2].
    apply elem_of_app in Hin as [Hin|Hin]; eauto.
  - apply elem_of_app in Hin as [Hin|Hin]; [eauto|].
    by apply list_elem_of_singleton in Hin as [= -> ->].
  - by apply list_elem_of_fmap in Hin as [s1 [[= -> ->] Hin]].
Qed.

(** A group in the first part of a concatenation whose second part has
    none. *)
Lemma always_group_cat_l (flag : bool) (P : list N → Prop) (r1 r2 : regex) :
  always_group flag P r1 → has_group r2 = false →
  always_group flag P (Cat r1 r2).
Proof.
  intros H1 H2 s s' g Hin. simpl in Hin.
  apply list_elem_of_bind in Hin as [[s1 g1] [Hin Hin1]].
  apply list_elem_of_bind in Hin as [[s2 g2] [Hin Hin2]].
  apply list_elem_of_singleton in Hin as [= -> ->].
  rewrite (run_no_group _ _ _ _ _ H2 Hin2). by eapply H1.
Qed.

(** The text of the group is a contiguous part of the input. *)
Lemma run_group_substring (flag : bool) (r : regex)
  (s s' g : list N) :
  (s', Some g) ∈ run flag r s → substring g s.
Proof.
  revert s s' g.
  induction r as [|l|cs|r1 IH1 r2 IH2|r1 IH1 r2 IH2|r IH|cs lo hi|r IH];
    simpl; intros s s' g Hin.
  - by apply list_elem_of_singleton in Hin.
  - destruct s as [|c s]; [by apply elem_of_nil in Hin|].
    destruct (lit_match flag l c); [|by apply elem_of_nil in Hin].
    by apply list_elem_of_singleton in Hin.
  - destruct s as [|c s]; [by apply elem_of_nil in Hin|].
    destruct (in_charset flag cs c); [|by apply elem_of_nil in Hin].
    by apply list_elem_of_singleton in Hin.
  - apply list_elem_of_bind in Hin as [[s1 g1] [Hin Hin1]].
    apply list_elem_of_bind in Hin as [[s2 g2] [Hin Hin2]].
    apply list_elem_of_singleton in Hin as [= -> Hg].
    destruct g2 as [g2|].
    + injection Hg as ->. apply IH2 in Hin2.
      apply run_suffix in Hin1 as [pre ->].
      eapply substring_trans; [done|]. exists pre, []. by rewrite app_nil_r.
    + subst g1. by eapply IH1.
  - apply elem_of_app in Hin as [Hin|Hin]; eauto.
  - apply elem_of_app in Hin as [Hin|Hin]; [eauto|].
    by apply list_elem_of_singleton in Hin.
  - by apply list_elem_of_fmap in Hin as [s1 [[= ->] Hin]].
  - apply list_elem_of_fmap in Hin as [[s1 g1] [[= -> ->] Hin]].
    apply take_substring.
Qed.

Lemma search_run (flag : bool) (r : regex) (text : list N) (m : Match) :
  search flag r text = Some m →
  ∃ a s s', text = a ++ s ∧ (s', group_1 m) ∈ run flag r s.
Proof.
  induction text as [|c text IH]; simpl.
  - destruct (run flag r []) as [|[s' g] l] eqn:Hrun; [done|].
    intros [= <-]. exists [], [], s'. rewrite Hrun. split; [done|]. simpl. left.
  - destruct (run flag r (c :: text)) as [|[s' g] l] eqn:Hrun.
    + intros (a & s & s' & -> & Hin)%IH. by exists (c :: a), s, s'.
    + intros [= <-]. exists [], (c :: text), s'. rewrite Hrun.
      split; [done|]. simpl. left.
Qed.

Lemma search_None_run (flag : bool) (r : regex) (a s : list N) :
  search flag r (a ++ s) = None → run flag r s = [].
Proof.
  induction a as [|c a IH]; simpl.
  - destruct s as [|c s]; simpl; by destruct (run flag r _) as [|[? ?] ?].
  - destruct (run flag r (c :: a ++ s)) as [|[? ?] ?]; [done|done].
Qed.

Lemma search_group_substring (flag : bool) (r : regex) (text g : list N) (m : Match) :
  search flag r text = Some m → group_1 m = Some g → substring g text.
Proof.
  intros (a & s & s' & -> & Hin)%search_run Hg. rewrite Hg in Hin.
  apply run_group_substring in Hin.
  eapply substring_trans; [done|]. exists a, []. by rewrite app_nil_r.
Qed.

End MatcherShapes.

(** ** The characters of the patterns *)

Section PatternCharacters.
Context {ucd : UnicodeData}.

Lemma existsb_eqb_forallb (P : N → bool) (x : N) (L : list N) :
  existsb (N.eqb x) L = true → forallb P L = true → P x = true.
Proof.
  intros (y & Hy & ->%N.eqb_eq)%existsb_exists Hall.
  by apply (proj1 (forallb_forall P L) Hall).
Qed.

Lemma lower_cases (c : N) :
  is_upper c = true ∨ c = 0x130 ∨ c = 0x212A ∨ lower c = c.
Proof.
  unfold lower. destruct (is_upper c); [by left|].
  destruct (c =? 0x130) eqn:H1; [apply N.eqb_eq in H1; auto|].
  destruct (c =? 0x212A) eqn:H2; [apply N.eqb_eq in H2; auto|].
  auto.
Qed.

Lemma letter_lower (c : N) : letter (lower c) = true → letter c = true.
Proof.
  destruct (lower_cases c) as [H | [ -> | [ -> | -> ] ] ]; try done.
  intros _. unfold letter. by rewrite H.
Qed.

Lemma policy_char_lower (c : N) : policy_char (lower c) = true → policy_char c = true.
Proof.
  destruct (lower_cases c) as [H | [ -> | [ -> | -> ] ] ]; try done.
  intros _. unfold policy_char, letter. by rewrite H.
Qed.

Lemma isspace_lower (c : N) : isspace (lower c) = true → isspace c = true.
Proof. destruct (lower_cases c) as [H | [ -> | [ -> | -> ] ] ]; try done.
  unfold lower. rewrite H. unfold is_upper in H.
  apply andb_prop in H as [H1%N.leb_le H2%N.leb_le].
  unfold isspace.
  rewrite !orb_true_iff, !andb_true_iff, !N.leb_le, !N.eqb_eq. lia.
Qed.

Lemma policy_char_not_space (c : N) : policy_char c = true → isspace c = false.
Proof.
  unfold policy_char, letter, ascii_digit, is_upper, is_lower, chr.
  change (N_of_ascii "-") with 45. change (N_of_ascii "/") with 47.
  rewrite !orb_true_iff, !andb_true_iff, !N.leb_le, !N.eqb_eq.
  intros H. apply not_true_is_false. unfold isspace.
  rewrite !orb_true_iff, !andb_true_iff, !N.leb_le, !N.eqb_eq. lia.
Qed.

(** [[A-Za-z0-9\-/]] under IGNORECASE. *)
Lemma policy_set_chars (c : N) :
  in_charset IGNORECASE
    (set [Rng (chr "A") (chr "Z"); Rng (chr "a") (chr "z");
          Rng (chr "0") (chr "9"); Chr (chr "-"); Chr (chr "/")]) c = true →
  policy_char c = true.
Proof.
  unfold in_charset, set, IGNORECASE. cbn [negate members].
  replace (true && existsb item_hascased _) with true by (by vm_compute).
  cbn [existsb item_match xorb orb]. rewrite !orb_true_iff.
  intros H. apply policy_char_lower.
  destruct H as [H|[H|[H|[H|[H|H]]]]]; [..|done];
    by apply (existsb_eqb_forallb policy_char _ _ H).
Qed.

(** [[A-Za-z\s]] under IGNORECASE. *)
Lemma name_set_chars (c : N) :
  in_charset IGNORECASE
    (set [Rng (chr "A") (chr "Z"); Rng (chr "a") (chr "z"); Space]) c = true →
  name_char c = true.
Proof.
  unfold in_charset, set, IGNORECASE. cbn [negate members].
  replace (true && existsb item_hascased _) with true by (by vm_compute).
  cbn [existsb item_match xorb orb]. rewrite !orb_true_iff.
  intros H. unfold name_char. apply orb_true_iff.
  destruct H as [H|[H|[H|H]]]; [..|done].
  - left. apply letter_lower. by apply (existsb_eqb_forallb letter _ _ H).
  - left. apply letter_lower. by apply (existsb_eqb_forallb letter _ _ H).
  - right. by apply isspace_lower.
Qed.

(** [\d], [[\d,]], [[/\-]] and [\.], with or without IGNORECASE: no member
    is cased. *)
Lemma digit_set_chars (flag : bool) (c : N) :
  in_charset flag digit c = true → isdecimal c = true.
Proof.
  unfold in_charset, digit, set. cbn [negate members existsb item_hascased].
  rewrite andb_false_r. cbn [existsb item_match xorb orb].
  by rewrite orb_false_r.
Qed.

Lemma digit_comma_set_chars (flag : bool) (c : N) :
  in_charset flag (set [Digit; Chr (chr ",")]) c = true →
  isdecimal c || (c =? chr ",") = true.
Proof.
  unfold in_charset, set. cbn [negate members].
  replace (flag && existsb item_hascased _) with false
    by (by destruct flag; vm_compute).
  cbn [existsb item_match xorb orb]. by rewrite orb_false_r.
Qed.

Lemma separator_set_chars (flag : bool) (c : N) :
  in_charset flag (set [Chr (chr "/"); Chr (chr "-")]) c = true →
  (c =? chr "/") || (c =? chr "-") = true.
Proof.
  unfold in_charset, set. cbn [negate members].
  replace (flag && existsb item_hascased _) with false
    by (by destruct flag; vm_compute).
  cbn [existsb item_match xorb orb]. by rewrite orb_false_r.
Qed.

Lemma dot_chars (flag : bool) (c : N) :
  lit_match flag (chr ".") c = true → (c =? chr ".") = true.
Proof.
  unfold lit_match.
  replace (flag && iscased (chr ".")) with false by (by destruct flag).
  done.
Qed.

Lemma number_chars (flag : bool) :
  chars_in flag (λ c, amount_char c = true) number.
Proof.
  unfold number, amount_char. cbn [cat chars_in plus]. repeat split.
  - intros c H%digit_comma_set_chars. apply orb_true_iff in H as [ -> | -> ]; [done|].
    by rewrite orb_true_r.
  - intros c H%dot_chars. rewrite H. by rewrite orb_true_r.
  - intros c H%digit_set_chars. by rewrite H.
Qed.

Lemma date_shape_chars (flag : bool) :
  chars_in flag (λ c, date_char c = true) date_shape.
Proof.
  assert (∀ c, in_charset flag digit c = true → date_char c = true) as Hd.
  { intros c H%digit_set_chars. unfold date_char. by rewrite H. }
  assert (∀ c, in_charset flag (set [Chr (chr "/"); Chr (chr "-")]) c = true →
               date_char c = true) as Hs.
  { intros c H%separator_set_chars. unfold date_char.
    apply orb_true_iff in H as [ -> | -> ]; by rewrite ?orb_true_r. }
  unfold date_shape. cbn [cat chars_in between]. repeat split; done.
Qed.

Lemma name_shape_chars :
  chars_in IGNORECASE (λ c, name_char c = true) name_shape.
Proof. exact name_set_chars. Qed.

End PatternCharacters.

(** ** The text of group 1, pattern by pattern *)

Section GroupTexts.
Context {ucd : UnicodeData}.

Lemma always_group_weaken (flag : bool) (P P' : list N → Prop) (r : regex) :
  (∀ g, P g → P' g) → always_group flag P r → always_group flag P' r.
Proof.
  intros HP Hr s s' g Hin. destruct (Hr _ _ _ Hin) as (g0 & -> & ?). eauto.
Qed.

Lemma always_group_and (flag : bool) (P P' : list N → Prop) (r : regex) :
  always_group flag P r → always_group flag P' r →
  always_group flag (λ g, P g ∧ P' g) r.
Proof.
  intros H1 H2 s s' g Hin.
  destruct (H1 _ _ _ Hin) as (g0 & -> & ?).
  destruct (H2 _ _ _ Hin) as (g1 & [= <-] & ?). eauto.
Qed.

(** A group that starts with at least one character of a set. *)
Lemma always_group_head (flag : bool) (cs : charset) (lo : nat) (hi : option nat)
  (r2 : regex) :
  always_group flag (λ g, ∃ c rest, g = c :: rest ∧ in_charset flag cs c = true)
    (Group (Cat (Rep cs (S lo) hi) r2)).
Proof.
  intros s s' g Hin.
  destruct (run_group _ _ _ _ _ _ (chars_in_True flag _) Hin)
    as (pre & -> & Hs & _ & Hmin & _).
  exists pre. split; [done|].
  simpl in Hin. apply list_elem_of_fmap in Hin as [[s1 g1] [_ Hin]].
  apply list_elem_of_bind in Hin as [[s2 g2] [_ Hin]].
  apply list_elem_of_fmap in Hin as [s3 [_ Hin]].
  apply rep_taken in Hin as (p1 & Hs' & Hall & Hlo & _).
  destruct p1 as [|c p1]; [simpl in Hlo; lia|].
  apply Forall_cons in Hall as [Hc _].
  simpl in Hmin. destruct pre as [|c' pre]; [simpl in Hmin; lia|].
  rewrite Hs in Hs'. injection Hs' as -> _. eauto.
Qed.

Lemma number_group (flag : bool) : always_group flag amount_text (Group number).
Proof.
  apply (always_group_weaken _
    (λ g, (Forall (λ c, amount_char c = true) g
           ∧ (min_len number ≤ length g)%nat
           ∧ ∀ m, max_len number = Some m → (length g ≤ m)%nat)
          ∧ ∃ c rest, g = c :: rest
              ∧ in_charset flag (set [Digit; Chr (chr ",")]) c = true)).
  - intros g [(Hall & _) (c & rest & -> & Hc%digit_comma_set_chars)].
    split; eauto.
  - apply always_group_and.
    + apply always_group_Group, number_chars.
    + apply always_group_head.
Qed.

Lemma date_group (flag : bool) : always_group flag date_text (Group date_shape).
Proof.
  apply (always_group_weaken _
    (λ g, (Forall (λ c, date_char c = true) g
           ∧ (min_len date_shape ≤ length g)%nat
           ∧ ∀ m, max_len date_shape = Some m → (length g ≤ m)%nat)
          ∧ ∃ c rest, g = c :: rest ∧ in_charset flag digit c = true)).
  - intros g [(Hall & Hmin & Hmax) (c & rest & -> & Hc%digit_set_chars)].
    specialize (Hmax 10%nat eq_refl). change (min_len date_shape) with 6%nat in Hmin.
    repeat split; eauto.
  - apply always_group_and.
    + apply always_group_Group, date_shape_chars.
    + apply always_group_head.
Qed.

Lemma name_group : always_group IGNORECASE name_text (Group name_shape).
Proof.
  apply (always_group_weaken _
    (λ g, Forall (λ c, name_char c = true) g
          ∧ (min_len name_shape ≤ length g)%nat
          ∧ ∀ m, max_len name_shape = Some m → (length g ≤ m)%nat)).
  - intros g (Hall & Hmin & Hmax). specialize (Hmax 50%nat eq_refl).
    change (min_len name_shape) with 2%nat in Hmin. by repeat split.
  - apply always_group_Group, name_shape_chars.
Qed.

Lemma policy_group :
  always_group IGNORECASE policy_text
    (Group (plus (set [Rng (chr "A") (chr "Z"); Rng (chr "a") (chr "z");
                       Rng (chr "0") (chr "9"); Chr (chr "-"); Chr (chr "/")]))).
Proof.
  eapply always_group_weaken;
    [|apply (always_group_Group _ (λ c, policy_char c = true));
      exact policy_set_chars].
  intros g (Hall & Hmin & _). split; [done|].
  intros ->. simpl in Hmin. lia.
Qed.

(** Through the parts of a pattern before and after its group. *)
Ltac to_the_group :=
  cbn [cat];
  repeat first [ apply always_group_cat_l; [|reflexivity]
               | apply always_group_cat ].

Lemma amount_patterns_text :
  Forall (always_group IGNORECASE amount_text) amount_patterns.
Proof.
  unfold amount_patterns, amount_treatment_cost, amount_rs, amount_rupee,
    amount_unit, amount_claim_amount, amount_amount.
  repeat constructor; to_the_group; apply number_group.
Qed.

Lemma policy_pattern_text : always_group IGNORECASE policy_text policy_pattern.
Proof. unfold policy_pattern. to_the_group. apply policy_group. Qed.

Lemma date_of_incident_text : always_group IGNORECASE date_text date_of_incident.
Proof. unfold date_of_incident. to_the_group. apply date_group. Qed.

Lemma date_keyword_text : always_group IGNORECASE date_text date_keyword.
Proof. unfold date_keyword. to_the_group. apply date_group. Qed.

Lemma date_bare_text : always_group NOFLAG date_text date_bare.
Proof. apply date_group. Qed.

Lemma name_policy_holder_text : always_group IGNORECASE name_text name_policy_holder.
Proof. unfold name_policy_holder. to_the_group. apply name_group. Qed.

Lemma name_keyword_text : always_group IGNORECASE name_text name_keyword.
Proof. unfold name_keyword. to_the_group. apply name_group. Qed.

(** A trimmed group: the group it comes from is a part of the text. *)
Lemma trimmed_group_text (flag : bool) (P : list N → Prop) (r : regex)
  (text v : list N) :
  always_group flag P r → trimmed_group flag r text = Some v →
  ∃ g, v = strip g ∧ P g ∧ substring g text.
Proof.
  intros Hr. unfold trimmed_group.
  destruct (search flag r text) as [m|] eqn:Hs; [|done]. simpl.
  destruct (search_always_group _ _ _ _ _ Hr Hs) as (g & Hg & HP).
  rewrite Hg. intros [= <-]. exists g. repeat split; [done|].
  by eapply search_group_substring.
Qed.

Lemma claim_amount_text (text v : list N) :
  spec_claim_amount text = Some v →
  ∃ g, v = strip g ∧ amount_text g ∧ substring g text.
Proof.
  unfold spec_claim_amount.
  destruct (first_matching amount_patterns text) as [p|] eqn:Hp; [|done].
  simpl. apply first_matching_Some in Hp as (i & Hi & _).
  apply trimmed_group_text.
  apply (proj1 (Forall_forall _ _) amount_patterns_text).
  by eapply list_elem_of_lookup_2.
Qed.

Lemma policy_number_text (text v : list N) :
  spec_policy_number text = Some v →
  ∃ g, v = strip g ∧ policy_text g ∧ substring g text.
Proof. apply trimmed_group_text, policy_pattern_text. Qed.

Lemma incident_date_text (text v : list N) :
  spec_incident_date text = Some v →
  ∃ g, v = strip g ∧ date_text g ∧ substring g text.
Proof.
  unfold spec_incident_date.
  destruct (trimmed_group IGNORECASE date_of_incident text) as [v1|] eqn:H1.
  { simpl. intros [= <-]. by eapply trimmed_group_text, H1; apply date_of_incident_text. }
  destruct (trimmed_group IGNORECASE date_keyword text) as [v2|] eqn:H2.
  { simpl. intros [= <-]. by eapply trimmed_group_text, H2; apply date_keyword_text. }
  simpl. apply trimmed_group_text, date_bare_text.
Qed.

Lemma claimant_name_text (text v : list N) :
  spec_claimant_name text = Some v →
  ∃ g, v = strip g ∧ name_text g ∧ substring g text.
Proof.
  unfold spec_claimant_name. intros Hv.
  assert (∃ g, v = take 80 (strip g) ∧ name_text g ∧ substring g text)
    as (g & -> & Hg & Hsub).
  { destruct (trimmed_group IGNORECASE name_policy_holder text) as [v1|] eqn:H1.
    - simpl in Hv. injection Hv as <-.
      destruct (trimmed_group_text _ _ _ _ _ name_policy_holder_text H1)
        as (g & -> & ? & ?). eauto.
    - simpl in Hv.
      destruct (trimmed_group IGNORECASE name_keyword text) as [v2|] eqn:H2;
        [|done].
      simpl in Hv. injection Hv as <-.
      destruct (trimmed_group_text _ _ _ _ _ name_keyword_text H2)
        as (g & -> & ? & ?). eauto. }
  exists g. split; [|done].
  pose proof (strip_length g). destruct Hg as (_ & _ & ?).
  apply take_ge. lia.
Qed.

(** The fields of the record that [extract_key_fields] returns. *)
Lemma extracted_field (text key v : list N) :
  (<[claimant_name := spec_claimant_name text]>
    (<[incident_date := spec_incident_date text]>
      (<[policy_number := spec_policy_number text]>
        (<[claim_amount := spec_claim_amount text]> (∅ : dict))))) !! key
    = Some (Some v) →
  (key = claimant_name ∧ spec_claimant_name text = Some v)
  ∨ (key = incident_date ∧ spec_incident_date text = Some v)
  ∨ (key = policy_number ∧ spec_policy_number text = Some v)
  ∨ (key = claim_amount ∧ spec_claim_amount text = Some v).
Proof.
  rewrite !lookup_insert, lookup_empty.
  repeat case_decide; subst; try done; intros [= ?]; auto.
Qed.

End GroupTexts.

(** ** Further properties of the extractor *)

Section ExtractorShapes.
Context {ucd : UnicodeData}.

Lemma substring_elem_of (c : N) (rest text : list N) :
  substring (c :: rest) text → c ∈ text.
Proof.
  intros (a & b & ->). apply elem_of_app. right. apply list_elem_of_here.
Qed.

(** X1: every value of the record that [extract_key_fields] returns is a
    contiguous part of the text: the extractor copies characters and makes
    up none. *)
Theorem extracted_values_are_parts_of_the_text (text : list N) :
  ∃ fields, extract_key_fields text = Ok fields
    ∧ ∀ key v, fields !! key = Some (Some v) → substring v text.
Proof.
  eexists. split; [apply extract_key_fields_spec|].
  assert (∀ g v, v = strip g → substring g text → substring v text) as Hsub.
  { intros g v -> Hg. eapply substring_trans; [apply strip_substring|done]. }
  intros key v [[_ H]|[[_ H]|[[_ H]|[_ H]]]]%extracted_field.
  - apply claimant_name_text in H as (g & ? & _ & ?). eauto.
  - apply incident_date_text in H as (g & ? & _ & ?). eauto.
  - apply policy_number_text in H as (g & ? & _ & ?). eauto.
  - apply claim_amount_text in H as (g & ? & _ & ?). eauto.
Qed.

(** X2: every value of the record is trimmed: [strip] leaves it as it is,
    so it neither starts nor ends with white space. *)
Theorem extracted_values_are_trimmed (text : list N) :
  ∃ fields, extract_key_fields text = Ok fields
    ∧ ∀ key v, fields !! key = Some (Some v) →
        strip v = v ∧ starts_clean v ∧ starts_clean (rev v).
Proof.
  eexists. split; [apply extract_key_fields_spec|].
  assert (∀ g v, v = strip g →
            strip v = v ∧ starts_clean v ∧ starts_clean (rev v)) as Hstrip.
  { intros g v ->. split; [apply strip_strip|].
    split; [apply strip_starts_clean|apply strip_ends_clean]. }
  intros key v [[_ H]|[[_ H]|[[_ H]|[_ H]]]]%extracted_field.
  - apply claimant_name_text in H as (g & ? & _). eauto.
  - apply incident_date_text in H as (g & ? & _). eauto.
  - apply policy_number_text in H as (g & ? & _). eauto.
  - apply claim_amount_text in H as (g & ? & _). eauto.
Qed.

(** X3: a policy number that is not null is not empty, holds no white space,
    and is made of letters, ASCII digits, hyphens and slashes only. *)
Theorem policy_number_is_a_token (text : list N) :
  ∃ fields, extract_key_fields text = Ok fields
    ∧ ∀ v, fields !! policy_number = Some (Some v) →
        v ≠ [] ∧ Forall (λ c, policy_char c = true ∧ isspace c = false) v.
Proof.
  eexists. split; [apply extract_key_fields_spec|].
  intros v [[? _]|[[? _]|[[_ H]|[? _]]]]%extracted_field; try done.
  apply policy_number_text in H as (g & -> & [Hall Hne] & _).
  assert (Forall (λ c, policy_char c = true ∧ isspace c = false) g) as Hall'.
  { eapply Forall_impl; [done|]. intros c Hc. split; [done|].
    by apply policy_char_not_space. }
  rewrite all_clean_strip; [done|].
  eapply Forall_impl; [done|]. by intros c [_ ?].
Qed.

(** X4: a claim amount that is not null is made of decimal digits, commas
    and dots only; it need not hold a digit: for the text "Rs ," it is ",". *)
Theorem claim_amount_characters :
  (∀ text : list N, ∃ fields, extract_key_fields text = Ok fields
     ∧ ∀ v, fields !! claim_amount = Some (Some v) →
         Forall (λ c, amount_char c = true) v)
  ∧ ∃ fields, extract_key_fields (py "Rs ,") = Ok fields
      ∧ fields !! claim_amount = Some (Some (py ",")).
Proof.
  split.
  - intros text. eexists. split; [apply extract_key_fields_spec|].
    intros v [[? _]|[[? _]|[[? _]|[_ H]]]]%extracted_field; try done.
    apply claim_amount_text in H as (g & -> & [Hall _] & _).
    by eapply substring_Forall; [apply strip_substring|].
  - eexists. split; [apply extract_key_fields_spec|]. by vm_compute.
Qed.

(** X5: a claimant name that is not null is made of letters and white
    space only. *)
Theorem claimant_name_characters (text : list N) :
  ∃ fields, extract_key_fields text = Ok fields
    ∧ ∀ v, fields !! claimant_name = Some (Some v) →
        Forall (λ c, name_char c = true) v.
Proof.
  eexists. split; [apply extract_key_fields_spec|].
  intros v [[_ H]|[[? _]|[[? _]|[? _]]]]%extracted_field; try done.
  apply claimant_name_text in H as (g & -> & [Hall _] & _).
  by eapply substring_Forall; [apply strip_substring|].
Qed.

(** X6: an incident date that is not null is made of decimal digits,
    slashes and hyphens only and has at most 10 characters. *)
Theorem incident_date_characters (text : list N) :
  ∃ fields, extract_key_fields text = Ok fields
    ∧ ∀ v, fields !! incident_date = Some (Some v) →
        Forall (λ c, date_char c = true) v ∧ (length v ≤ 10)%nat.
Proof.
  eexists. split; [apply extract_key_fields_spec|].
  intros v [[? _]|[[_ H]|[[? _]|[? _]]]]%extracted_field; try done.
  apply incident_date_text in H as (g & -> & (Hall & Hlen & _) & _).
  split; [by eapply substring_Forall; [apply strip_substring|]|].
  pose proof (strip_length g). lia.
Qed.

(** X7: in a text without any decimal digit the incident date is null, and
    the claim amount is null too when the text has no comma either. *)
Theorem no_digit_no_date_no_amount (text : list N) :
  Forall (λ c, isdecimal c = false) text →
  ∃ fields, extract_key_fields text = Ok fields
    ∧ fields !! incident_date = Some None
    ∧ (chr "," ∉ text → fields !! claim_amount = Some None).
Proof.
  intros Hnone. eexists. split; [apply extract_key_fields_spec|]. split.
  - change (Some (spec_incident_date text) = Some None). f_equal.
    destruct (spec_incident_date text) as [v|] eqn:H; [|done].
    apply incident_date_text in H
      as (g & _ & (_ & _ & c & rest & -> & Hc) & Hsub%substring_elem_of).
    apply (proj1 (Forall_forall _ _) Hnone) in Hsub. congruence.
  - intros Hcomma.
    change (Some (spec_claim_amount text) = Some None). f_equal.
    destruct (spec_claim_amount text) as [v|] eqn:H; [|done].
    apply claim_amount_text in H
      as (g & _ & (_ & c & rest & -> & Hc) & Hsub%substring_elem_of).
    apply orb_true_iff in Hc as [Hc|Hc%N.eqb_eq].
    + apply (proj1 (Forall_forall _ _) Hnone) in Hsub. congruence.
    + by subst c.
Qed.

End ExtractorShapes.

(** X7 on the text "hello world". *)
Lemma no_digit_no_date_no_amount_witness :
  ∃ fields, @extract_key_fields ascii_digits_only (py "hello world") = Ok fields
    ∧ fields !! incident_date = Some None.
Proof.
  assert (Forall (λ c, @isdecimal ascii_digits_only c = false) (py "hello world"))
    as H by (repeat constructor).
  destruct (@no_digit_no_date_no_amount ascii_digits_only (py "hello world") H)
    as (fields & Hf & Hd & _).
  by exists fields.
Defined.

(** ** Further facts on the difference computer and the classifier *)

Section ClassifierFacts.
Context {order : SetIteration}.

Lemma compute_differences_elem_of (n e : dict) (d : difference) :
  d ∈ compute_differences n e ↔ difference_at n e (field d) = Some d.
Proof.
  rewrite compute_differences_omap, list_elem_of_omap. split.
  - intros (key & _ & Hd).
    pose proof (proj1 (difference_at_Some _ _ _ _) Hd) as (<- & _). done.
  - intros Hd. exists (field d). split; [|done].
    apply iter_union_elem_of, get_differ_dom.
    by apply difference_at_Some in Hd as (_ & ? & _).
Qed.

Lemma compute_differences_NoDup (n e : dict) : NoDup (compute_differences n e).
Proof. eapply NoDup_fmap_1, compute_differences_fields_NoDup. Qed.

Lemma critical_fields_NoDup : NoDup CRITICAL_CLAIM_FIELDS.
Proof. apply (bool_decide_unpack _). by vm_compute. Qed.

Lemma critical_count_closed (n e : dict) :
  critical_count (compute_differences n e) = critical_fields_differing n e.
Proof.
  unfold critical_count, critical_fields_differing.
  set (P := λ d : difference, field d ∈ critical_field_set).
  rewrite <-(length_fmap field).
  apply Permutation_length, NoDup_Permutation.
  - apply (sublist_NoDup _ (field <$> compute_differences n e)).
    + apply compute_differences_fields_NoDup.
    + apply fmap_sublist, (sublist_filter P).
  - apply NoDup_filter, critical_fields_NoDup.
  - intros key. rewrite list_elem_of_fmap, list_elem_of_filter. split.
    + intros (d & -> & [Hd Hin]%list_elem_of_filter).
      apply compute_differences_elem_of, difference_at_Some in Hin as (_ & ? & _).
      split; [done|]. by apply critical_fields_as_set.
    + intros [Hne Hkey].
      exists (Difference key (str_or_dash (get e key)) (str_or_dash (get n key))).
      split; [done|]. apply list_elem_of_filter. split.
      * by apply critical_fields_as_set.
      * apply compute_differences_elem_of. simpl. unfold difference_at.
        by rewrite decide_True.
Qed.

(** The classifier, said without the list of differences. *)
Lemma classifier_closed (n e : dict) (min_differences : option Z) :
  key_fields_indicate_different_claim n e min_differences
  = (Z.of_nat (critical_fields_differing n e) >=? default 2%Z min_differences)%Z.
Proof.
  unfold key_fields_indicate_different_claim. cbv zeta.
  rewrite (list_filter_iff _ (λ d, field d ∈ critical_field_set))
    by (intros d; apply critical_fields_as_set).
  fold (critical_count (compute_differences n e)).
  by rewrite critical_count_closed.
Qed.

Lemma critical_fields_differing_le (n e : dict) :
  (critical_fields_differing n e ≤ 4)%nat.
Proof. apply (length_filter _ CRITICAL_CLAIM_FIELDS). Qed.

Lemma critical_fields_differing_comm (a b : dict) :
  critical_fields_differing a b = critical_fields_differing b a.
Proof.
  unfold critical_fields_differing. f_equal. apply list_filter_iff.
  intros key. split; congruence.
Qed.

Lemma critical_fields_differing_same (a : dict) : critical_fields_differing a a = 0%nat.
Proof.
  unfold critical_fields_differing.
  induction CRITICAL_CLAIM_FIELDS as [|key l IH]; [done|].
  by rewrite filter_cons_False by (by intros ?).
Qed.

Lemma filter_ext_elem_of {A} (P Q : A → Prop) `{∀ x, Decision (P x)}
  `{∀ x, Decision (Q x)} (l : list A) :
  (∀ x, x ∈ l → P x ↔ Q x) → filter P l = filter Q l.
Proof.
  induction l as [|x l IH]; intros Hl; [done|].
  rewrite !filter_cons, IH by (intros y Hy; apply Hl; by right).
  pose proof (Hl x (list_elem_of_here _ _)).
  repeat case_decide; tauto || done.
Qed.

Lemma get_insert_ne (d : dict) (key key' : list N) (v : option (list N)) :
  key ≠ key' → get (<[key := v]> d) key' = get d key'.
Proof. intros Hne. unfold get. by rewrite lookup_insert_ne. Qed.

Lemma critical_fields_differing_insert_l (n e : dict) (key : list N)
  (v : option (list N)) :
  key ∉ CRITICAL_CLAIM_FIELDS →
  critical_fields_differing (<[key := v]> n) e = critical_fields_differing n e.
Proof.
  intros Hkey. unfold critical_fields_differing. f_equal.
  apply filter_ext_elem_of. intros key' Hin.
  rewrite get_insert_ne; [done|]. by intros ->.
Qed.

Lemma critical_fields_differing_insert_r (n e : dict) (key : list N)
  (v : option (list N)) :
  key ∉ CRITICAL_CLAIM_FIELDS →
  critical_fields_differing n (<[key := v]> e) = critical_fields_differing n e.
Proof.
  intros Hkey. unfold critical_fields_differing. f_equal.
  apply filter_ext_elem_of. intros key' Hin.
  rewrite get_insert_ne; [done|]. by intros ->.
Qed.

Lemma compute_differences_nil (n e : dict) :
  compute_differences n e = [] ↔ ∀ key, get n key = get e key.
Proof.
  split.
  - intros Hnil key.
    destruct (decide (get e key = get n key)) as [|Hne]; [done|].
    assert (Difference key (str_or_dash (get e key)) (str_or_dash (get n key))
            ∈ compute_differences n e) as Hin.
    { apply compute_differences_elem_of. simpl. unfold difference_at.
      by rewrite decide_True. }
    rewrite Hnil in Hin. by apply elem_of_nil in Hin.
  - intros Hsame. apply elem_of_nil_inv. intros d Hd.
    apply compute_differences_elem_of, difference_at_Some in Hd as (_ & Hne & _).
    by apply Hne.
Qed.

Lemma difference_at_get (n e n' e' : dict) (key : list N) :
  get n key = get n' key → get e key = get e' key →
  difference_at n e key = difference_at n' e' key.
Proof. unfold difference_at. by intros -> ->. Qed.


End ClassifierFacts.

(** ** Further properties of the difference computer and the classifier *)

Section ClassifierProperties.
Context {order : SetIteration}.

(** X8: the classifier compares the two records on the four critical fields
    only: it answers true exactly when at least [min_differences] of
    policy_number, claimant_name, claim_amount and incident_date have
    different values in the two records, a missing key counting as null. *)
Theorem classifier_counts_differing_critical_fields
  (new_fields existing_fields : dict) (min_differences : Z) :
  key_fields_indicate_different_claim new_fields existing_fields (Some min_differences)
    = true
  ↔ (min_differences
       ≤ Z.of_nat (length (filter
           (λ key, get existing_fields key ≠ get new_fields key)
           [policy_number; claimant_name; claim_amount; incident_date])))%Z.
Proof. rewrite classifier_closed. simpl. by rewrite Z.geb_le. Qed.

(** X9: with [min_differences] above 4 the classifier answers false for any
    two records. *)
Theorem classifier_false_above_four
  (new_fields existing_fields : dict) (min_differences : Z) :
  (4 < min_differences)%Z →
  key_fields_indicate_different_claim new_fields existing_fields (Some min_differences)
    = false.
Proof.
  intros Hk. rewrite classifier_closed. simpl.
  pose proof (critical_fields_differing_le new_fields existing_fields).
  apply not_true_is_false. rewrite Z.geb_le. lia.
Qed.

(** X10: the classifier is symmetric in the two records. *)
Theorem classifier_symmetric (a b : dict) (min_differences : option Z) :
  key_fields_indicate_different_claim a b min_differences
  = key_fields_indicate_different_claim b a min_differences.
Proof. by rewrite !classifier_closed, critical_fields_differing_comm. Qed.

(** X11: a key that is not one of the four critical fields has no effect on
    the classifier: setting it in either record leaves the answer as it
    is. *)
Theorem classifier_ignores_other_keys
  (new_fields existing_fields : dict) (key : list N) (v : option (list N))
  (min_differences : option Z) :
  key ∉ CRITICAL_CLAIM_FIELDS →
  key_fields_indicate_different_claim (<[key := v]> new_fields) existing_fields
      min_differences
    = key_fields_indicate_different_claim new_fields existing_fields min_differences
  ∧ key_fields_indicate_different_claim new_fields (<[key := v]> existing_fields)
      min_differences
    = key_fields_indicate_different_claim new_fields existing_fields min_differences.
Proof.
  intros Hkey. rewrite !classifier_closed.
  by rewrite critical_fields_differing_insert_l, critical_fields_differing_insert_r.
Qed.

(** X12: the answer of the classifier is the same for every order in which
    the set of keys is iterated. *)
Theorem classifier_any_iteration_order (order' : SetIteration)
  (new_fields existing_fields : dict) (min_differences : option Z) :
  @key_fields_indicate_different_claim order new_fields existing_fields min_differences
  = @key_fields_indicate_different_claim order' new_fields existing_fields
      min_differences.
Proof. by rewrite !classifier_closed. Qed.

(** X13: a record is different from itself for no threshold above 0, so not
    for the default threshold. *)
Theorem classifier_same_record (a : dict) (min_differences : Z) :
  (key_fields_indicate_different_claim a a (Some min_differences) = true
   ↔ (min_differences ≤ 0)%Z)
  ∧ key_fields_indicate_different_claim a a None = false.
Proof.
  rewrite !classifier_closed, critical_fields_differing_same. simpl.
  split; [by rewrite Z.geb_le|done].
Qed.

(** X14: [compute_differences] does not tell a key that is missing from a
    key that is bound to null: records with the same [get] for every key
    give the same entries. *)
Theorem compute_differences_null_as_missing (n e n' e' : dict) :
  (∀ key, get n key = get n' key) → (∀ key, get e key = get e' key) →
  compute_differences n e ≡ₚ compute_differences n' e'.
Proof.
  intros Hn He. apply NoDup_Permutation; [apply compute_differences_NoDup..|].
  intros d. rewrite !compute_differences_elem_of.
  by rewrite (difference_at_get n e n' e').
Qed.


(** X16: the list of differences is empty exactly when the two records have
    the same value for every key, a missing key counting as null. *)
Theorem compute_differences_empty (new_fields existing_fields : dict) :
  compute_differences new_fields existing_fields = []
  ↔ ∀ key, get new_fields key = get existing_fields key.
Proof. apply compute_differences_nil. Qed.

End ClassifierProperties.

(** X9 at two records and the threshold 5. *)
Lemma classifier_false_above_four_witness :
  (4 < 5)%Z
  ∧ @key_fields_indicate_different_claim elements_order other_amount_and_date
      scenario_A_fields (Some 5%Z) = false.
Proof.
  split; [lia|].
  apply (@classifier_false_above_four elements_order other_amount_and_date
           scenario_A_fields 5%Z).
  lia.
Defined.

(** X11 at the key "notes". *)
Lemma classifier_ignores_other_keys_witness :
  (py "notes" ∉ CRITICAL_CLAIM_FIELDS)
  ∧ @key_fields_indicate_different_claim elements_order
      (<[py "notes" := Some (py "urgent")]> other_amount) scenario_A_fields None
    = @key_fields_indicate_different_claim elements_order other_amount
        scenario_A_fields None.
Proof.
  assert (py "notes" ∉ CRITICAL_CLAIM_FIELDS) as H.
  { apply (bool_decide_unpack _). by vm_compute. }
  split; [exact H|].
  exact (proj1 (@classifier_ignores_other_keys elements_order other_amount
                  scenario_A_fields (py "notes") (Some (py "urgent")) None H)).
Defined.

(** X14 at a record with a key bound to null and the empty record. *)
Lemma compute_differences_null_as_missing_witness :
  @compute_differences elements_order {[py "notes" := None]} scenario_A_fields
  ≡ₚ @compute_differences elements_order ∅ scenario_A_fields.
Proof.
  apply (@compute_differences_null_as_missing elements_order
           {[py "notes" := None]} scenario_A_fields ∅ scenario_A_fields).
  - intros key. unfold get. rewrite lookup_empty.
    destruct (decide (key = py "notes")) as [->|Hne].
    + by rewrite lookup_singleton_eq.
    + by rewrite lookup_singleton_ne.
  - done.
Defined.


(** ** From the extractor to the classifier *)

Section Composition.
Context {ucd : UnicodeData} {order : SetIteration}.

Lemma extracted_dom (a n d p : option (list N)) :
  dom (<[claimant_name := n]> (<[incident_date := d]>
        (<[policy_number := p]> (<[claim_amount := a]> (∅ : dict)))))
  = field_record_keys.
Proof.
  rewrite !dom_insert_L, dom_empty_L. unfold field_record_keys.
  apply set_eq. intros key.
  rewrite !elem_of_union, !elem_of_singleton, elem_of_empty. tauto.
Qed.

Lemma field_record_keys_critical (key : list N) :
  key ∈ field_record_keys → key ∈ CRITICAL_CLAIM_FIELDS.
Proof.
  unfold field_record_keys, CRITICAL_CLAIM_FIELDS.
  rewrite !elem_of_union, !elem_of_singleton, !elem_of_cons, elem_of_nil. tauto.
Qed.

Lemma filter_all {A} (P : A → Prop) `{∀ x, Decision (P x)} (l : list A) :
  Forall P l → filter P l = l.
Proof.
  induction 1 as [|x l Hx _ IH]; [done|].
  by rewrite filter_cons_True, IH.
Qed.

Lemma same_dom_get_eq (r1 r2 : dict) :
  dom r1 = dom r2 → (∀ key, get r1 key = get r2 key) → r1 = r2.
Proof.
  intros Hdom Hget. apply map_eq. intros key. specialize (Hget key).
  unfold get in Hget.
  destruct (r1 !! key) as [v1|] eqn:H1, (r2 !! key) as [v2|] eqn:H2.
  - by subst.
  - apply (elem_of_dom_2 r1) in H1. apply not_elem_of_dom in H2. congruence.
  - apply (elem_of_dom_2 r2) in H2. apply not_elem_of_dom in H1. congruence.
  - done.
Qed.

(** X17: for the records of two texts, every difference entry is on one of
    the four critical fields; so there are at most four entries, the
    classifier compares their number with the threshold, and there is no
    entry exactly when the two records are equal. *)
Theorem differences_of_extracted_records (text1 text2 : list N) :
  ∃ r1 r2, extract_key_fields text1 = Ok r1 ∧ extract_key_fields text2 = Ok r2
    ∧ Forall (λ d, field d ∈ CRITICAL_CLAIM_FIELDS) (compute_differences r1 r2)
    ∧ (length (compute_differences r1 r2) ≤ 4)%nat
    ∧ (∀ min_differences,
         key_fields_indicate_different_claim r1 r2 min_differences
         = (Z.of_nat (length (compute_differences r1 r2))
              >=? default 2%Z min_differences)%Z)
    ∧ (compute_differences r1 r2 = [] ↔ r1 = r2).
Proof.
  eexists _, _. split; [apply extract_key_fields_spec|].
  split; [apply extract_key_fields_spec|].
  set (r1 := <[claimant_name := _]> _). set (r2 := <[claimant_name := _]> _).
  assert (dom r1 = field_record_keys) as Hd1 by apply extracted_dom.
  assert (dom r2 = field_record_keys) as Hd2 by apply extracted_dom.
  assert (Forall (λ d, field d ∈ CRITICAL_CLAIM_FIELDS) (compute_differences r1 r2))
    as Hall.
  { apply Forall_forall. intros d Hd. apply field_record_keys_critical.
    apply compute_differences_elem_of, difference_at_Some in Hd as (_ & Hne & _).
    apply get_differ_dom in Hne. rewrite Hd1, Hd2 in Hne.
    by apply elem_of_union in Hne as [?|?]. }
  assert (∀ min_differences,
    key_fields_indicate_different_claim r1 r2 min_differences
    = (Z.of_nat (length (compute_differences r1 r2))
         >=? default 2%Z min_differences)%Z) as Hkf.
  { intros k. unfold key_fields_indicate_different_claim. cbv zeta.
    by rewrite filter_all. }
  split; [done|]. split; [|split; [done|]].
  - pose proof (critical_fields_differing_le r1 r2) as Hle.
    rewrite <-critical_count_closed in Hle. unfold critical_count in Hle.
    rewrite filter_all in Hle; [done|].
    eapply Forall_impl; [done|]. intros d. apply critical_fields_as_set.
  - rewrite compute_differences_nil. split.
    + intros Hget. apply same_dom_get_eq; [congruence|done].
    + by intros ->.
Qed.

End Composition.
